(** * effect-solutions CLI: catalog lookup and terminal rendering

    A shallow embedding of the CLI entry module (list / show rendering):
    [wrapText], [colorizeCodeReferences], [isDocSlug], [renderDocs] and
    [showDocs], with the properties of its word wrapping, slug validation,
    de-duplication and colourisation. *)

From Stdlib Require Import ZArith NArith Lia String Ascii.
From stdpp Require Import base list gmap.

Local Open Scope Z_scope.

(** ** Strings

    A JavaScript string is a sequence of UTF-16 code units; [.length] counts
    code units. Code units are kept as [N]. *)

Abbreviation str := (list N).

(** Literals: the code units of an ASCII string. *)
Fixpoint u (s : string) : str :=
  match s with
  | EmptyString => []
  | String c s' => N_of_ascii c :: u s'
  end.

(** [s.length]. *)
Definition len (s : str) : Z := Z.of_nat (length s).

(** The characters matched by [\s] in a regular expression, which are also
    the ones [String.prototype.trim] strips: WhiteSpace and LineTerminator. *)
Definition is_space (c : N) : bool :=
  match c with
  | 9%N | 10%N | 11%N | 12%N | 13%N | 32%N | 160%N | 5760%N
  | 8232%N | 8233%N | 8239%N | 8287%N | 12288%N | 65279%N => true
  | _ => (8192 <=? c)%N && (c <=? 8202)%N
  end.

Definition SP : N := 32%N.
Definition NL : N := 10%N.
Definition BACKTICK : N := 96%N.

Fixpoint trimStart (s : str) : str :=
  match s with
  | [] => []
  | c :: s' => if is_space c then trimStart s' else s
  end.

Definition trimEnd (s : str) : str := reverse (trimStart (reverse s)).

(** [s.trim()]. *)
Definition trim (s : str) : str := trimEnd (trimStart s).

(** [Array.prototype.join]. *)
Fixpoint join (sep : str) (l : list str) : str :=
  match l with
  | [] => []
  | [x] => x
  | x :: l' => x ++ sep ++ join sep l'
  end.

(** [text.split(/\s+/)]: the pieces between maximal runs of whitespace. A
    run at the very start or end leaves an empty piece there. [in_ws] is set
    while the scan is inside a run, [piece] is the piece read so far. *)
Fixpoint split_from (in_ws : bool) (piece : str) (s : str) : list str :=
  match s with
  | [] => [piece]
  | c :: s' =>
      if is_space c then
        if in_ws then split_from true piece s'
        else piece :: split_from true [] s'
      else split_from false (piece ++ [c]) s'
  end.

Definition split_ws (text : str) : list str := split_from false [] text.

(** ** wrapText *)

(** One iteration of the [for (const word of words)] loop, on the pair of
    the mutable [lines] array and the [current] line. *)
Definition wrap_step (maxWidth : Z) (st : list str * str) (word : str)
  : list str * str :=
  let '(lines, current) := st in
  if len current =? 0 then (lines, word)
  else if len current + 1 + len word <=? maxWidth
       then (lines, current ++ [SP] ++ word)
       else (lines ++ [current], word).

Definition wrap_finish (st : list str * str) : list str :=
  let '(lines, current) := st in
  if 0 <? len current then lines ++ [current] else lines.

Definition wrap_words (maxWidth : Z) (words : list str) : list str :=
  wrap_finish (foldl (wrap_step maxWidth) ([], []) words).

(** [maxWidth] is a number; the callers pass whole numbers of columns. *)
Definition wrapText (text : str) (maxWidth : Z) : list str :=
  if bool_decide (trim text = []) || (maxWidth <=? 0) then [text]
  else wrap_words maxWidth (split_ws text).

(** The greedy rule in the spec's words: a word is accumulated onto the
    current line while [len current + 1 + len word <= maxWidth]; otherwise
    the current line is flushed and a new one starts with that word. *)
Fixpoint greedy_lines (maxWidth : Z) (current : str) (words : list str)
  : list str :=
  match words with
  | [] => [current]
  | w :: ws =>
      if len current + 1 + len w <=? maxWidth
      then greedy_lines maxWidth (current ++ [SP] ++ w) ws
      else current :: greedy_lines maxWidth w ws
  end.

Definition greedy_wrap (maxWidth : Z) (words : list str) : list str :=
  match words with
  | [] => []
  | w :: ws => greedy_lines maxWidth w ws
  end.

(** The whitespace-separated words of a text: the non-empty pieces. *)
Definition words_of (text : str) : list str :=
  filter (λ w, w ≠ []) (split_ws text).

(** ** Predicates used in the statements *)

(** Empty or made of whitespace only. *)
Definition blank (s : str) : Prop := Forall (λ c, is_space c = true) s.

(** No whitespace at the end (the empty text included). *)
Definition no_trailing_space (s : str) : Prop :=
  ∀ c, last s = Some c → is_space c = false.

(** A text ends in a word when its last character is not whitespace. *)
Definition ends_in_word (text : str) : Prop :=
  ∃ c, last text = Some c ∧ is_space c = false.

(** Occurrences of a line (or word) in a list of lines (or words). *)
Definition occurrences (w : str) (l : list str) : nat :=
  length (filter (λ x, x = w) l).

(** ** colorizeCodeReferences *)

(** The picocolors object [pc]: the four formatters the module uses. The
    library is an external dependency; the rendering functions take it as a
    parameter. *)
Record Colors := {
  bold : str → str;
  green : str → str;
  cyan : str → str;
  dim : str → str
}.

Fixpoint starts_with (p s : str) : bool :=
  match p, s with
  | [], _ => true
  | a :: p', b :: s' => (a =? b)%N && starts_with p' s'
  | _ :: _, [] => false
  end.

Definition ends_with (p s : str) : bool := starts_with (reverse p) (reverse s).

(** [text.replace(/`X`/g, f)] for a pattern that is a backtick, a non-empty
    run X of characters other than the backtick with [inner X], and a
    backtick. All four patterns of [colorizeCodeReferences] have this shape.
    The scan goes left to right; [span] holds the run read since the last
    backtick that may still open a match. A backtick that closes a run not
    matched by the pattern is the next candidate opener, and the match is
    replaced by [f] of the whole match, backticks included. *)
Fixpoint replace_from (inner : str → bool) (f : str → str)
    (span : option str) (s : str) : str :=
  match s with
  | [] =>
      match span with
      | None => []
      | Some x => BACKTICK :: x
      end
  | c :: s' =>
      match span with
      | None =>
          if (c =? BACKTICK)%N then replace_from inner f (Some []) s'
          else c :: replace_from inner f None s'
      | Some x =>
          if (c =? BACKTICK)%N then
            if inner x
            then f (BACKTICK :: x ++ [BACKTICK]) ++ replace_from inner f None s'
            else (BACKTICK :: x) ++ replace_from inner f (Some []) s'
          else replace_from inner f (Some (x ++ [c])) s'
      end
  end.

Definition replace_spans (inner : str → bool) (f : str → str) (text : str)
  : str := replace_from inner f None text.

(** [bunx [^`]+] *)
Definition inner_bunx (x : str) : bool :=
  starts_with (u "bunx ") x && (5 <? length x)%nat.

(** [bun run [^`]+] *)
Definition inner_bun_run (x : str) : bool :=
  starts_with (u "bun run ") x && (8 <? length x)%nat.

(** [[^`]+\.(ts|json|toml|md)] *)
Definition inner_file (x : str) : bool :=
  existsb (λ ext, ends_with (u "." ++ ext) x && (length ext + 1 <? length x)%nat)
          [u "ts"; u "json"; u "toml"; u "md"].

(** [[^`]+] *)
Definition inner_any (x : str) : bool := (0 <? length x)%nat.

Definition colorizeCodeReferences (pc : Colors) (text : str) : str :=
  replace_spans inner_any (dim pc)
    (replace_spans inner_file (cyan pc)
      (replace_spans inner_bun_run (λ m, bold pc (green pc m))
        (replace_spans inner_bunx (λ m, bold pc (green pc m)) text))).

(** An escape sequence. *)
Definition esc (code : string) : str := 27%N :: u code.

(** [replaceClose] of picocolors: every occurrence of [close], from left to
    right and without overlap, gives way to [replace]. [skip] counts the
    characters of an occurrence still to be passed over. *)
Fixpoint replace_close (close replace : str) (skip : nat) (s : str) : str :=
  match s with
  | [] => []
  | c :: s' =>
      match skip with
      | S k => replace_close close replace k s'
      | O =>
          if starts_with close s
          then replace ++ replace_close close replace (length close - 1) s'
          else c :: replace_close close replace 0 s'
      end
  end.

(** [formatter(open, close, replace)] of picocolors, with colours on: the
    input between [open] and [close]; the closing sequences the input holds
    from position [open.length] on (where [indexOf] starts to look) are
    replaced, so that an enclosed style does not end the enclosing one. *)
Definition formatter (open close replace : str) (input : str) : str :=
  open ++ take (length open) input
  ++ replace_close close replace 0 (drop (length open) input)
  ++ close.

Definition pc_ansi : Colors := {|
  bold := formatter (esc "[1m") (esc "[22m") (esc "[22m" ++ esc "[1m");
  green := formatter (esc "[32m") (esc "[39m") (esc "[32m");
  cyan := formatter (esc "[36m") (esc "[39m") (esc "[36m");
  dim := formatter (esc "[2m") (esc "[22m") (esc "[22m" ++ esc "[2m")
|}.

(** The formatters when colours are off. *)
Definition pc_plain : Colors :=
  {| bold := id; green := id; cyan := id; dim := id |}.

(** A formatter that shows where a substitution took place. *)
Definition bracket (m : str) : str := u "[" ++ m ++ u "]".

(** ** The catalog and renderDocs *)

Record Doc := {
  slug : str;
  title : str;
  description : str;
  body : str
}.

(** What is thrown: an [Error] with its message, or the [TypeError] of
    the runtime for a method call on [undefined] (its message depends on the
    runtime and is left out). *)
Inductive exn :=
  | Error (message : str)
  | TypeError.

(** The class of a thrown value, as [instanceof] tells it. *)
Inductive exn_class := ErrorClass | TypeErrorClass.

Definition class_of (e : exn) : exn_class :=
  match e with
  | Error _ => ErrorClass
  | TypeError => TypeErrorClass
  end.

(** The names every plain object inherits from [Object.prototype]. *)
Definition OBJECT_PROTOTYPE_KEYS : list str :=
  [u "constructor"; u "__defineGetter__"; u "__defineSetter__";
   u "hasOwnProperty"; u "__lookupGetter__"; u "__lookupSetter__";
   u "isPrototypeOf"; u "propertyIsEnumerable"; u "toString"; u "valueOf";
   u "__proto__"; u "toLocaleString"].

Inductive result (A : Type) :=
  | Return (a : A)
  | Throw (e : exn).
Arguments Return {A} a.
Arguments Throw {A} e.

Definition bind {A B} (r : result A) (k : A → result B) : result B :=
  match r with
  | Return a => k a
  | Throw e => Throw e
  end.

Notation "'let*' x := r 'in' k" := (bind r (λ x, k))
  (at level 10, x name, r at level 100, k at level 200, only parsing).

(** [xs.map(f)] for a callback that may throw. *)
Fixpoint map_throwing {A B} (f : A → result B) (xs : list A) : result (list B) :=
  match xs with
  | [] => Return []
  | x :: xs' =>
      let* y := f x in
      let* ys := map_throwing f xs' in
      Return (y :: ys)
  end.

(** A JavaScript [Set] of strings: its elements in insertion order. *)
Definition Set_add (s : list str) (x : str) : list str :=
  if bool_decide (x ∈ s) then s else s ++ [x].

(** [Array.from(new Set(xs))] *)
Definition Array_from_Set (xs : list str) : list str := foldl Set_add [] xs.

Definition MISSING_SLUGS : str := u "Please provide at least one doc slug.".

Definition unknown_slugs_message (unknown : list str) : str :=
  u "Unknown doc slug(s): " ++ join (u ", ") unknown.

Definition internal_error_message (slug : str) : str :=
  u "Internal error: doc " ++ slug ++ u " not found in lookup".

Definition block_separator (pc : Colors) : str :=
  [NL; NL] ++ dim pc (u "---") ++ [NL; NL].

Definition MIN_TERMINAL_WIDTH : Z := 40.
Definition FALLBACK_TERMINAL_WIDTH : Z := 80.
Definition MIN_DESCRIPTION_WIDTH : Z := 20.

(** [columns] is [process.stdout.columns] when it is a number. *)
Definition getTerminalWidth (columns : option Z) : Z :=
  let width :=
    match columns with
    | Some w => w
    | None => FALLBACK_TERMINAL_WIDTH
    end in
  Z.max MIN_TERMINAL_WIDTH width.

Definition descriptionWidth (columns : option Z) : Z :=
  Z.max MIN_DESCRIPTION_WIDTH (getTerminalWidth columns - len (u "  ")).

(** What a property access on the lookup object finds. *)
Inductive property :=
  | OwnDoc (doc : Doc)
  | Inherited
  | Absent.

Section Catalog.
(** The docs manifest (the list [DOCS] and the table [DOC_LOOKUP], from the
    module [docs-manifest]) is a parameter. The table is a plain object:
    its own properties, from slug to document, are the finite map
    [DOC_LOOKUP]; the other names it answers to are those it inherits from
    [Object.prototype], whose values are functions (an object for
    [__proto__]), not documents. *)
Variable pc : Colors.
Variable DOCS : list Doc.
Variable DOC_LOOKUP : gmap str Doc.

(** [DOC_LOOKUP[key]]: an own property shadows an inherited one. *)
Definition DOC_LOOKUP_at (key : str) : property :=
  match DOC_LOOKUP !! key with
  | Some doc => OwnDoc doc
  | None =>
      if bool_decide (key ∈ OBJECT_PROTOTYPE_KEYS) then Inherited else Absent
  end.

Definition renderDocList (columns : option Z) : str :=
  let indent := u "  " in
  let cards :=
    (λ doc,
       let titleLine :=
         green pc (slug doc) ++ u "  " ++ bold pc (cyan pc (title doc)) in
       let wrappedDescription :=
         (λ line, indent ++ dim pc line)
           <$> wrapText (description doc) (descriptionWidth columns) in
       join [NL] (titleLine :: wrappedDescription)) <$> DOCS in
  join [NL; NL] cards ++ [NL].

(** [value in DOC_LOOKUP]: true of own and of inherited names. *)
Definition isDocSlug (value : str) : bool :=
  match DOC_LOOKUP_at value with
  | Absent => false
  | OwnDoc _ | Inherited => true
  end.

(** The text of one block, for a document found in the table. *)
Definition renderBlock (doc : Doc) : str :=
  let title_line :=
    bold pc (cyan pc (u "## " ++ title doc))
    ++ [SP] ++ dim pc (u "(" ++ slug doc ++ u ")") in
  let body_text := colorizeCodeReferences pc (trim (body doc)) in
  join [NL] (filter (λ s, s ≠ []) [title_line; []; body_text]).

(** The callback of [uniqueSlugs.map]. What an inherited name finds is
    truthy, so the guard [!doc] lets it pass; it has no [body], and
    [doc.body.trim()] throws a [TypeError]. *)
Definition block_of (s : str) : result str :=
  match DOC_LOOKUP_at s with
  | Absent => Throw (Error (internal_error_message s))
  | OwnDoc doc => Return (renderBlock doc)
  | Inherited => Throw TypeError
  end.

(** [requested.map((slug) => slug.trim()).filter(Boolean)] *)
Definition requested_slugs (requested : list str) : list str :=
  filter (λ s, s ≠ []) (trim <$> requested).

Definition unknown_slugs (slugs : list str) : list str :=
  filter (λ s, isDocSlug s = false) slugs.

Definition join_blocks (blocks : list str) : str :=
  join (block_separator pc) blocks ++ [NL].

Definition renderDocs (requested : list str) : result str :=
  let slugs := requested_slugs requested in
  if (length slugs =? 0)%nat then Throw (Error MISSING_SLUGS)
  else
    let unknown := unknown_slugs slugs in
    if (0 <? length unknown)%nat
    then Throw (Error (unknown_slugs_message unknown))
    else
      let uniqueSlugs := Array_from_Set slugs in
      let* blocks := map_throwing block_of uniqueSlugs in
      Return (join_blocks blocks).

(** The outcome of running an effect: success with the text logged, a
    failure in the error channel, or a defect. [Effect.try] turns a thrown
    error into a failure that wraps it ([UnknownException]). *)
Inductive exit :=
  | Success (logged : str)
  | Failure (unknownException : exn)
  | Die (defect : exn).

(** [Effect.try(() => renderDocs(slugs)).pipe(Effect.flatMap(Console.log))] *)
Definition showDocs (slugs : list str) : exit :=
  match renderDocs slugs with
  | Return output => Success output
  | Throw e => Failure e
  end.
End Catalog.

(** ** First occurrences, in the spec's words

    The slugs of a list without repetition, each at the place of its first
    occurrence: position [i] is kept when its slug is not among the first
    [i] slugs. *)
Definition first_occurrences (l : list str) : list str :=
  omap id (imap (λ i x, if bool_decide (x ∈ take i l) then None else Some x) l).

(** ** A sample catalog *)

Definition doc_a : Doc :=
  {| slug := u "a"; title := u "A"; description := u "x y z";
     body := u "Run `bunx tsc` on `main.ts` for `A`." |}.
Definition doc_b : Doc :=
  {| slug := u "b"; title := u "B"; description := []; body := u "Plain." |}.

Definition sample_lookup : gmap str Doc :=
  <[u "a" := doc_a]> (<[u "b" := doc_b]> ∅).

Definition sample_request : list str := [u "b"; u " a "; u "b"].
Definition bogus_request : list str := [u "a"; u "bogus"; u "b"; u "bogus2"].
Definition repeated_bogus_request : list str := [u "bogus"; u "a"; u " bogus"].

(** ** Further predicates and the cards of the list rendering *)

(** Without any whitespace character. *)
Definition spaceless (s : str) : Prop := Forall (λ c, is_space c = false) s.

(** A line that starts with a character of a word and whose only whitespace
    characters are plain spaces. *)
Definition tidy_line (l : str) : Prop :=
  (∃ c, head l = Some c ∧ is_space c = false) ∧
  ∀ c, c ∈ l → is_space c = true → c = SP.

(** The lines of one card of [renderDocList]: the title line and the
    indented lines of the wrapped description. *)
Definition cardLines (pc : Colors) (columns : option Z) (doc : Doc) : list str :=
  (green pc (slug doc) ++ u "  " ++ bold pc (cyan pc (title doc)))
  :: ((λ line, u "  " ++ dim pc line)
        <$> wrapText (description doc) (descriptionWidth columns)).

(** The title line of a block of [renderDocs]. *)
Definition titleLine (pc : Colors) (doc : Doc) : str :=
  bold pc (cyan pc (u "## " ++ title doc))
  ++ [SP] ++ dim pc (u "(" ++ slug doc ++ u ")").

(** ** The website: documents, groups of the document list *)

(** [str.split(",")]: the pieces between commas; an empty string gives one
    empty piece. *)
Fixpoint split_at (sep : N) (piece : str) (s : str) : list str :=
  match s with
  | [] => [piece]
  | c :: s' =>
      if (c =? sep)%N then piece :: split_at sep [] s'
      else split_at sep (piece ++ [c]) s'
  end.

Definition COMMA : N := 44%N.

Module Site.

(** A document as the pages receive it from [getAllDocs]; [description] and
    [draft] are optional. *)
Record doc := {
  slug : str;
  title : str;
  description : option str;
  draft : option bool
}.

Inductive DocGroup := Setup | CorePatterns | Drafts.

Global Instance DocGroup_eq_dec : EqDecision DocGroup.
Proof. solve_decision. Defined.

Definition GROUP_DISPLAY_ORDER : list DocGroup := [Setup; CorePatterns; Drafts].

Definition SETUP_SLUGS : list str :=
  [u "overview"; u "project-setup"; u "tsconfig"].

Definition assignGroup (d : doc) : DocGroup :=
  match draft d with
  | Some true => Drafts
  | _ =>
      if bool_decide (slug d ∈ SETUP_SLUGS) then Setup else CorePatterns
  end.

(** The accumulator of the [reduce]: an object with an array for each group
    that has been assigned a document so far. *)
Definition group_step (acc : DocGroup → option (list doc)) (d : doc)
  : DocGroup → option (list doc) :=
  let group := assignGroup d in
  λ g, if decide (g = group)
       then Some (match acc group with
                  | Some ds => ds ++ [d]
                  | None => [d]
                  end)
       else acc g.

Definition grouped (docs : list doc) : DocGroup → option (list doc) :=
  foldl group_step (λ _, None) docs.

(** The sections the component renders, in order, each with its documents:
    [GROUP_DISPLAY_ORDER.filter((group) => grouped[group]?.length)], and
    [grouped[group]] for each. *)
Definition sections (docs : list doc) : list (DocGroup * list doc) :=
  omap (λ g, match grouped docs g with
             | Some (d :: ds) => Some (g, d :: ds)
             | _ => None
             end) GROUP_DISPLAY_ORDER.

End Site.

(** ** The specs of the preview images *)

Module Og.

Record TemplateFields := {
  slug : str;
  title : str;
  subtitle : option str;
  background : option str
}.

Definition homeSpec : TemplateFields :=
  {| slug := u "home"; title := u "Effect Solutions";
     subtitle := Some (u "Best practices for building Effect TypeScript applications");
     background := None |}.

(** [docs] is the result of [getAllDocs()]. *)
Definition buildDocSpecs (docs : list Site.doc) : list TemplateFields :=
  let docSpecs :=
    (λ d, {| slug := Site.slug d; title := Site.title d;
             subtitle :=
               Some (match Site.description d with
                     | Some text => text
                     | None => u "Best practices for applying Effect in production."
                     end);
             background := None |}) <$> docs in
  homeSpec :: docSpecs.

(** One iteration of the loop of [dedupeSpecs], on the set [seen], the
    array [unique] and the warnings written so far. *)
Definition dedupe_step (st : gset str * list TemplateFields * list str)
    (spec : TemplateFields) : gset str * list TemplateFields * list str :=
  let '(seen, unique, warnings) := st in
  if bool_decide (slug spec ∈ seen)
  then (seen, unique,
        warnings ++ [u "Skipping duplicate OG slug: " ++ slug spec])
  else ({[slug spec]} ∪ seen, unique ++ [spec], warnings).

(** The specs kept, and the warnings written to the console. *)
Definition dedupeSpecs (specs : list TemplateFields)
  : list TemplateFields * list str :=
  let '(_, unique, warnings) := foldl dedupe_step (∅, [], []) specs in
  (unique, warnings).

(** [OG_ONLY] is [process.env.OG_ONLY]. *)
Definition only_slugs (OG_ONLY : option str) : list str :=
  filter (λ s, s ≠ [])
         (trim <$> split_at COMMA [] (default [] OG_ONLY)).

Definition pickSpecs (OG_ONLY : option str) (docs : list Site.doc)
  : list TemplateFields * list str :=
  let only := only_slugs OG_ONLY in
  let '(specs, warnings) := dedupeSpecs (buildDocSpecs docs) in
  if (length only =? 0)%nat then (specs, warnings)
  else
    let filtered := filter (λ spec, slug spec ∈ only) specs in
    if (length filtered =? 0)%nat
    then (specs,
          warnings ++ [u "No OG specs matched OG_ONLY filter ("
                       ++ join (u ", ") only
                       ++ u "). Falling back to complete set."])
    else (filtered, warnings).

(** The first spec of a list with a given slug. *)
Definition first_with_slug (s : str) (specs : list TemplateFields)
  : option TemplateFields :=
  head (filter (λ spec, slug spec = s) specs).

End Og.

Definition doc_tsconfig : Site.doc :=
  {| Site.slug := u "tsconfig"; Site.title := u "TypeScript";
     Site.description := None; Site.draft := None |}.
Definition doc_home : Site.doc :=
  {| Site.slug := u "home"; Site.title := u "Not the home page";
     Site.description := Some (u "shadowed"); Site.draft := Some true |}.
Definition doc_services : Site.doc :=
  {| Site.slug := u "services"; Site.title := u "Services";
     Site.description := Some []; Site.draft := Some false |}.
Definition doc_overview : Site.doc :=
  {| Site.slug := u "overview"; Site.title := u "Overview";
     Site.description := None; Site.draft := Some true |}.

Definition site_docs : list Site.doc :=
  [doc_tsconfig; doc_home; doc_services; doc_overview].

(** ** A block of the show rendering, in the spec's words

    A header line (the title, bold and coloured, with the slug in
    parentheses, dimmed) followed by the body text with its code references
    colourised; a document without body text has the header line only. *)
Definition show_block (pc : Colors) (doc : Doc) : str :=
  titleLine pc doc
  ++ match colorizeCodeReferences pc (trim (body doc)) with
     | [] => []
     | c :: text => NL :: c :: text
     end.

(** * Properties *)

(** ** Splitting and wrapping on small texts *)

Example split_plain : split_ws (u "x y z") = [u "x"; u "y"; u "z"].
Proof. reflexivity. Qed.

Example split_edges : split_ws (u " a  b ") = [[]; u "a"; u "b"; []].
Proof. reflexivity. Qed.

Example wrap_xyz : wrapText (u "x y z") 3 = [u "x y"; u "z"].
Proof. reflexivity. Qed.

Example wrap_trailing : wrapText (u "a ") 10 = [u "a "].
Proof. reflexivity. Qed.

Example wrap_blank : wrapText (u "  ") 1 = [u "  "].
Proof. reflexivity. Qed.

(** ** Facts about trimming and splitting *)

Lemma trimStart_nil (s : str) : trimStart s = [] ↔ blank s.
Proof.
  unfold blank. induction s as [|c s IH]; simpl.
  - split; [constructor | done].
  - destruct (is_space c) eqn:Hc.
    + rewrite IH. split; [by constructor | by inversion 1].
    + split; [done | inversion 1; congruence].
Qed.

Lemma trimStart_head (s t : str) (c : N) :
  trimStart s = c :: t → is_space c = false.
Proof.
  induction s as [|d s IH]; simpl; [done|].
  destruct (is_space d) eqn:Hd; [done|]. intros [= -> _]. done.
Qed.

Lemma trim_nil (s : str) : trim s = [] ↔ blank s.
Proof.
  split.
  - unfold trim, trimEnd. intros H.
    destruct (trimStart s) as [|c t] eqn:Ht; [by apply trimStart_nil|].
    apply (f_equal reverse) in H. rewrite reverse_involutive, reverse_nil in H.
    apply trimStart_nil in H. unfold blank in H.
    rewrite Forall_reverse in H. apply trimStart_head in Ht.
    inversion H; congruence.
  - intros H. apply trimStart_nil in H. unfold trim. by rewrite H.
Qed.

(** A blank text only has empty pieces. *)
Lemma split_from_blank (s : str) (b : bool) :
  blank s → Forall (λ w, w = []) (split_from b [] s).
Proof.
  unfold blank. revert b. induction s as [|c s IH]; intros b H; simpl.
  - by repeat constructor.
  - inversion H as [|? ? Hc Hs]; subst. rewrite Hc.
    destruct b; [by apply IH | constructor; [done | by apply IH]].
Qed.

Lemma no_trailing_space_cons (c : N) (s : str) :
  no_trailing_space (c :: s) → s ≠ [] → no_trailing_space s.
Proof.
  intros H Hs d Hd. apply H. destruct s; [done|]. by rewrite last_cons_cons.
Qed.

Lemma split_from_nonempty (s : str) :
  no_trailing_space s →
  (s ≠ [] → Forall (λ w, w ≠ []) (split_from true [] s)) ∧
  (∀ piece, piece ≠ [] → Forall (λ w, w ≠ []) (split_from false piece s)).
Proof.
  induction s as [|c s IH]; intros Hnt.
  - split; [done|]. intros piece Hp. simpl. by repeat constructor.
  - assert (Hs : is_space c = true → s ≠ []).
    { intros Hc ->. specialize (Hnt c eq_refl). congruence. }
    assert (Hnt' : no_trailing_space s).
    { destruct s; [by intros ? [=]|]. by eapply no_trailing_space_cons. }
    destruct (IH Hnt') as [IH1 IH2]. simpl.
    destruct (is_space c) eqn:Hc.
    + split; [intros _; by apply IH1, Hs|].
      intros piece Hp. constructor; [done | by apply IH1, Hs].
    + split; [intros _; by apply IH2|].
      intros piece Hp. apply IH2. by destruct piece.
Qed.

Lemma filter_nonempty_id (ws : list str) :
  Forall (λ w, w ≠ []) ws → filter (λ w, w ≠ []) ws = ws.
Proof.
  induction 1 as [|w ws Hw _ IH]; [done|].
  by rewrite filter_cons_True, IH.
Qed.

(** The pieces of a text that ends in a word: its words, after one empty
    piece when the text starts with whitespace. *)
Lemma split_ws_words (text : str) (c : N) :
  last text = Some c → is_space c = false →
  Forall (λ w, w ≠ []) (words_of text) ∧
  (split_ws text = words_of text ∨ split_ws text = [] :: words_of text).
Proof.
  intros Hl Hc.
  assert (Hnt : no_trailing_space text) by (intros d Hd; congruence).
  unfold words_of, split_ws. destruct text as [|d s]; [done|]. simpl.
  assert (Hs : is_space d = true → s ≠ []).
  { intros Hd ->. simpl in Hl. congruence. }
  assert (Hnt' : no_trailing_space s).
  { destruct s; [by intros ? [=]|]. by eapply no_trailing_space_cons. }
  destruct (split_from_nonempty s Hnt') as [H1 H2].
  destruct (is_space d) eqn:Hd.
  - rewrite filter_cons_False by (by intros H).
    rewrite filter_nonempty_id by (by apply H1, Hs). split; [by apply H1, Hs | by right].
  - rewrite filter_nonempty_id by (by apply H2). split; [by apply H2 | by left].
Qed.

(** ** The wrapping loop *)

Lemma len_app (a b : str) : len (a ++ b) = len a + len b.
Proof. unfold len. rewrite length_app. lia. Qed.

Lemma len_cons (c : N) (s : str) : len (c :: s) = 1 + len s.
Proof. unfold len. simpl length. lia. Qed.

Lemma len_nonneg (s : str) : 0 <= len s.
Proof. unfold len. lia. Qed.

Ltac len_simpl := rewrite ?len_app, ?len_cons in *.

Lemma len_nil_iff (s : str) : len s = 0 ↔ s = [].
Proof. unfold len. destruct s; simpl; split; (done || lia). Qed.

Lemma len_pos (s : str) : s ≠ [] → 0 < len s.
Proof. unfold len. destruct s; simpl; [done | lia]. Qed.

Lemma wrap_words_skip_empty (W : Z) (ws : list str) :
  wrap_words W ([] :: ws) = wrap_words W ws.
Proof. reflexivity. Qed.

Lemma wrap_loop_greedy (W : Z) (ws : list str) :
  Forall (λ w, w ≠ []) ws →
  ∀ lines cur, cur ≠ [] →
    wrap_finish (foldl (wrap_step W) (lines, cur) ws)
    = lines ++ greedy_lines W cur ws.
Proof.
  induction 1 as [|w ws Hw _ IH]; intros lines cur Hc; simpl.
  - apply len_pos in Hc. by rewrite (proj2 (Z.ltb_lt _ _) Hc).
  - assert ((len cur =? 0) = false) as -> by (apply len_pos in Hc; lia).
    destruct (len cur + 1 + len w <=? W).
    + apply IH. by destruct cur.
    + rewrite IH by done. by rewrite <- app_assoc.
Qed.

Lemma wrap_words_greedy (W : Z) (ws : list str) :
  Forall (λ w, w ≠ []) ws → wrap_words W ws = greedy_wrap W ws.
Proof.
  intros H. destruct H as [|w ws Hw Hws]; [done|].
  unfold wrap_words. simpl. by rewrite wrap_loop_greedy.
Qed.

Lemma greedy_lines_cons (W : Z) (ws : list str) (cur : str) :
  ∃ l ls, greedy_lines W cur ws = l :: ls.
Proof.
  revert cur. induction ws as [|w ws IH]; intros cur; simpl; [by eauto|].
  destruct (len cur + 1 + len w <=? W); eauto.
Qed.

Lemma greedy_lines_bound (W : Z) (ws : list str) :
  Forall (λ w, len w <= W) ws →
  ∀ cur, len cur <= W → Forall (λ l, len l <= W) (greedy_lines W cur ws).
Proof.
  induction 1 as [|w ws Hw _ IH]; intros cur Hc; simpl.
  - by repeat constructor.
  - destruct (len cur + 1 + len w <=? W) eqn:Hfit.
    + apply Z.leb_le in Hfit. apply IH. len_simpl. lia.
    + constructor; [done | by apply IH].
Qed.

Lemma join_cons_cons (sep x y : str) (l : list str) :
  join sep (x :: y :: l) = x ++ sep ++ join sep (y :: l).
Proof. reflexivity. Qed.

Lemma greedy_lines_join (W : Z) (ws : list str) (cur : str) :
  join [SP] (greedy_lines W cur ws) = join [SP] (cur :: ws).
Proof.
  revert cur. induction ws as [|w ws IH]; intros cur; simpl greedy_lines; [done|].
  destruct (len cur + 1 + len w <=? W).
  - rewrite IH, join_cons_cons. destruct ws as [|x ws]; [done|].
    rewrite !join_cons_cons. by rewrite <- !app_assoc.
  - destruct (greedy_lines_cons W ws w) as (l & ls & Hg).
    rewrite join_cons_cons, <- IH, Hg. done.
Qed.

Lemma occurrences_app (w : str) (a b : list str) :
  occurrences w (a ++ b) = (occurrences w a + occurrences w b)%nat.
Proof. unfold occurrences. by rewrite filter_app, length_app. Qed.

Lemma occurrences_cons (w x : str) (l : list str) :
  occurrences w (x :: l) = (occurrences w [x] + occurrences w l)%nat.
Proof. apply (occurrences_app w [x] l). Qed.

Lemma occurrences_other (w x : str) : x ≠ w → occurrences w [x] = 0%nat.
Proof.
  intros H. unfold occurrences. rewrite filter_cons.
  destruct (decide (x = w)); [done|]. done.
Qed.

Lemma occurrences_pos (w : str) (l : list str) :
  w ∈ l ↔ (0 < occurrences w l)%nat.
Proof.
  unfold occurrences. split.
  - intros H. assert (w ∈ filter (λ x, x = w) l) as Hin
      by (by apply list_elem_of_filter).
    destruct (filter _ l); [by apply elem_of_nil in Hin | simpl; lia].
  - intros H. destruct (filter (λ x, x = w) l) as [|y ys] eqn:Hf;
      [simpl in H; lia|].
    assert (y ∈ filter (λ x, x = w) l) as Hin by (rewrite Hf; left).
    apply list_elem_of_filter in Hin as [-> ?]. done.
Qed.

(** A word longer than the width is never merged into a line: every
    occurrence of it among the words is a line of its own. *)
Lemma wrap_loop_count (W : Z) (w : str) :
  0 <= W → W < len w →
  ∀ ws lines cur,
    occurrences w (wrap_finish (foldl (wrap_step W) (lines, cur) ws))
    = (occurrences w lines + occurrences w [cur] + occurrences w ws)%nat.
Proof.
  intros HW Hw. induction ws as [|x ws IH]; intros lines cur; simpl.
  - destruct (0 <? len cur) eqn:Hc.
    + rewrite occurrences_app. change (occurrences w []) with 0%nat. lia.
    + assert (cur = []) as -> by (apply len_nil_iff; pose proof (len_nonneg cur); lia).
      rewrite occurrences_other by (intros <-; unfold len in Hw; simpl in Hw; lia).
      change (occurrences w []) with 0%nat. lia.
  - rewrite (occurrences_cons w x ws).
    destruct (len cur =? 0) eqn:Hc.
    + rewrite IH. apply Z.eqb_eq in Hc.
      rewrite (occurrences_other w cur) by (intros ->; lia). lia.
    + destruct (len cur + 1 + len x <=? W) eqn:Hfit.
      * rewrite IH. apply Z.leb_le in Hfit.
        assert (0 <= len cur ∧ 0 <= len x) as [? ?] by (unfold len; lia).
        rewrite (occurrences_other w cur) by (intros ->; lia).
        rewrite (occurrences_other w x) by (intros ->; lia).
        rewrite (occurrences_other w (cur ++ SP :: x)).
        { lia. }
        intros Heq. rewrite <- Heq in Hw. len_simpl. lia.
      * rewrite IH, occurrences_app. lia.
Qed.

(** Lines only grow by a word that fits. *)
Lemma wrap_loop_bound (W : Z) (ws : list str) :
  Forall (λ w, len w <= W) ws →
  ∀ lines cur, Forall (λ l, len l <= W) lines → len cur <= W →
    Forall (λ l, len l <= W) (wrap_finish (foldl (wrap_step W) (lines, cur) ws)).
Proof.
  induction 1 as [|w ws Hw _ IH]; intros lines cur Hl Hc; simpl.
  - destruct (0 <? len cur); [|done]. apply Forall_app. by repeat constructor.
  - destruct (len cur =? 0); [by apply IH|].
    destruct (len cur + 1 + len w <=? W) eqn:Hfit.
    + apply Z.leb_le in Hfit. apply IH; [done|]. len_simpl. lia.
    + apply IH; [|done]. apply Forall_app. by repeat constructor.
Qed.

Lemma words_bound_pieces (W : Z) (text : str) :
  0 < W → Forall (λ w, len w <= W) (words_of text) →
  Forall (λ w, len w <= W) (split_ws text).
Proof.
  intros HW. unfold words_of. rewrite !Forall_forall. intros H w Hw.
  destruct w as [|c w]; [change (len []) with 0; lia|].
  apply H, list_elem_of_filter. split; [done|done].
Qed.

(** ** Properties of wrapText *)

(** The width the list rendering wraps to is positive, whatever the
    terminal reports. *)
Lemma descriptionWidth_positive (columns : option Z) :
  0 < descriptionWidth columns.
Proof. unfold descriptionWidth, MIN_DESCRIPTION_WIDTH. lia. Qed.


(** C4 (as amended). For a text that is not blank, all of whose words have
    length at most W, with W > 0: every line of [wrapText text W] has length
    at most W; and when the text ends in a word (leading whitespace and inner
    runs of whitespace are allowed), the lines joined by single spaces are
    the words joined by single spaces, and the lines are those of the greedy
    rule, which accumulates a word onto the current line exactly when
    [len current + 1 + len word <= W]. *)
Theorem wrapText_fits_and_rejoins (text : str) (W : Z) :
  ¬ blank text → 0 < W →
  Forall (λ w, len w <= W) (words_of text) →
  Forall (λ l, len l <= W) (wrapText text W) ∧
  (ends_in_word text →
   join [SP] (wrapText text W) = join [SP] (words_of text) ∧
   wrapText text W = greedy_wrap W (words_of text)).
Proof.
  intros Hnb HW Hws. rewrite <- trim_nil in Hnb.
  assert (Hw : wrapText text W = wrap_words W (split_ws text)).
  { unfold wrapText. rewrite bool_decide_eq_false_2 by done.
    by assert ((W <=? 0) = false) as -> by lia. }
  split.
  - rewrite Hw. unfold wrap_words.
    apply wrap_loop_bound; [by apply words_bound_pieces | done |].
    change (len []) with 0. lia.
  - intros (c & Hl & Hc).
    assert (Hg : wrapText text W = greedy_wrap W (words_of text)).
    { rewrite Hw. destruct (split_ws_words text c Hl Hc) as [Hne [-> | ->]].
      - by apply wrap_words_greedy.
      - rewrite wrap_words_skip_empty. by apply wrap_words_greedy. }
    rewrite Hg. split; [|done].
    destruct (words_of text) as [|w ws]; [done|]. simpl greedy_wrap.
    apply greedy_lines_join.
Qed.

Lemma wrapText_fits_and_rejoins_witness :
  ¬ blank (u " to be  or not") ∧ 0 < 5 ∧
  Forall (λ l, len l <= 5) (wrapText (u " to be  or not") 5) ∧
  wrapText (u " to be  or not") 5 = [u "to be"; u "or"; u "not"] ∧
  join [SP] (wrapText (u " to be  or not") 5) = u "to be or not".
Proof.
  assert (Hb : ¬ blank (u " to be  or not")).
  { intros H. apply trim_nil in H. vm_compute in H. discriminate. }
  assert (He : ends_in_word (u " to be  or not")) by (exists 116%N; by vm_compute).
  assert (Hw : Forall (λ w, len w <= 5) (words_of (u " to be  or not")))
    by (vm_compute; repeat constructor; discriminate).
  destruct (wrapText_fits_and_rejoins (u " to be  or not") 5 Hb ltac:(lia) Hw)
    as (Hf & Hrest).
  destruct (Hrest He) as (Hj & Hg).
  split; [done|]. split; [lia|]. split; [done|]. split.
  - rewrite Hg. reflexivity.
  - rewrite Hj. reflexivity.
Defined.

(** The claim C4 as first stated fails on texts left out above: a blank text
    is passed through whole, whatever the width, and trailing whitespace is
    kept on the last line when it fits. *)
Lemma wrapText_rejoin_counterexample :
  (0 < 1 ∧ Forall (λ w, len w <= 1) (split_ws (u "  ")) ∧
   ¬ Forall (λ l, len l <= 1) (wrapText (u "  ") 1)) ∧
  (0 < 10 ∧ Forall (λ w, len w <= 10) (split_ws (u "a ")) ∧
   join [SP] (wrapText (u "a ") 10) ≠ join [SP] (words_of (u "a "))).
Proof.
  split; (split; [lia|]); (split; [vm_compute; repeat constructor; discriminate|]).
  - intros H. inversion H as [|? ? Hl _]; subst. vm_compute in Hl. by apply Hl.
  - vm_compute. discriminate.
Qed.

(** C7 (as amended). A description that is empty or made of whitespace only
    is passed through unwrapped, for every positive width: [wrapText] gives
    exactly one line, the description itself, which is the empty line when
    the description is empty. *)
Theorem wrapText_blank_passthrough (text : str) (W : Z) :
  blank text → 0 < W →
  wrapText text W = [text] ∧ (text = [] → wrapText text W = [[]]).
Proof.
  intros Hb _. apply trim_nil in Hb. unfold wrapText.
  rewrite bool_decide_eq_true_2 by done. simpl. split; [done | by intros ->].
Qed.

Lemma wrapText_blank_passthrough_witness :
  blank (u "  ") ∧ 0 < 20 ∧ wrapText (u "  ") 20 = [u "  "].
Proof.
  assert (Hb : blank (u "  ")) by (by repeat constructor).
  split; [done|]. split; [lia|].
  apply (wrapText_blank_passthrough (u "  ") 20 Hb). lia.
Defined.

(** The line of a whitespace-only description is not the empty line. *)
Lemma wrapText_blank_line_counterexample :
  blank (u " ") ∧ 0 < 5 ∧ wrapText (u " ") 5 ≠ [[]].
Proof. split; [by repeat constructor|]. split; [lia|]. vm_compute. discriminate. Qed.

(** C8. For every text and width W > 0, a whitespace-separated word longer
    than W is a line of [wrapText text W] on its own, unchanged: it is among
    the lines, as often as it is among the words. *)
Theorem wrapText_long_word_alone (text : str) (W : Z) (w : str) :
  0 < W → w ∈ split_ws text → W < len w →
  w ∈ wrapText text W ∧
  occurrences w (wrapText text W) = occurrences w (split_ws text).
Proof.
  intros HW Hin Hw.
  assert (Hocc : occurrences w (wrapText text W) = occurrences w (split_ws text)).
  { unfold wrapText.
    destruct (decide (trim text = [])) as [Hb|Hb].
    - apply trim_nil, (split_from_blank _ false) in Hb.
      rewrite Forall_forall in Hb. apply Hb in Hin. subst w.
      change (len []) with 0 in Hw. lia.
    - rewrite bool_decide_eq_false_2 by done.
      assert ((W <=? 0) = false) as -> by lia. simpl.
      unfold wrap_words. rewrite wrap_loop_count by lia.
      rewrite occurrences_other; [done|].
      intros <-. change (len []) with 0 in Hw. lia. }
  split; [|done]. apply occurrences_pos. rewrite Hocc. by apply occurrences_pos.
Qed.

Lemma wrapText_long_word_alone_witness :
  0 < 4 ∧ u "wrapping" ∈ split_ws (u "a wrapping b") ∧
  u "wrapping" ∈ wrapText (u "a wrapping b") 4.
Proof.
  assert (Hin : u "wrapping" ∈ split_ws (u "a wrapping b"))
    by (vm_compute; right; left).
  split; [lia|]. split; [done|].
  apply (wrapText_long_word_alone (u "a wrapping b") 4 (u "wrapping")); 
    [lia | done | vm_compute; reflexivity].
Defined.

(** ** De-duplication *)

Lemma Array_from_Set_from (l acc : list str) :
  foldl Set_add acc l
  = acc ++ omap id (imap (λ i x,
      if bool_decide (x ∈ acc ++ take i l) then None else Some x) l).
Proof.
  revert acc. induction l as [|x l IH]; intros acc.
  - simpl. by rewrite app_nil_r.
  - simpl foldl. rewrite IH, imap_cons. simpl take. rewrite app_nil_r.
    unfold Set_add.
    destruct (bool_decide (x ∈ acc)) eqn:Hin.
    + apply bool_decide_eq_true in Hin. simpl. do 2 f_equal.
      apply imap_ext. intros i y _. simpl.
      erewrite bool_decide_ext; [done|].
      rewrite !elem_of_app, elem_of_cons.
      split; [tauto|]. intros [?|[->|?]]; tauto.
    + simpl. rewrite <- app_assoc. simpl. do 3 f_equal.
      apply imap_ext. intros i y _. simpl. by rewrite <- app_assoc.
Qed.

(** [Array.from(new Set(slugs))] keeps each slug at its first occurrence. *)
Lemma Array_from_Set_first_occurrences (l : list str) :
  Array_from_Set l = first_occurrences l.
Proof. unfold Array_from_Set. by rewrite Array_from_Set_from. Qed.

Lemma Set_add_elem_of (acc : list str) (x s : str) :
  s ∈ Set_add acc x ↔ s ∈ acc ∨ s = x.
Proof.
  unfold Set_add. destruct (decide (x ∈ acc)) as [Hin|Hin].
  - rewrite bool_decide_eq_true_2 by done. split; [tauto|]. intros [?| ->]; done.
  - rewrite bool_decide_eq_false_2 by done.
    by rewrite elem_of_app, list_elem_of_singleton.
Qed.

Lemma Set_add_NoDup (acc : list str) (x : str) :
  NoDup acc → NoDup (Set_add acc x).
Proof.
  intros Hnd. unfold Set_add. destruct (decide (x ∈ acc)) as [Hin|Hin].
  - by rewrite bool_decide_eq_true_2.
  - rewrite bool_decide_eq_false_2 by done.
    apply NoDup_app. split; [done|]. split; [|apply NoDup_singleton].
    intros y Hy Hy'. apply list_elem_of_singleton in Hy'. by subst.
Qed.

Lemma Set_add_fold (l acc : list str) :
  NoDup acc →
  NoDup (foldl Set_add acc l) ∧
  ∀ s, s ∈ foldl Set_add acc l ↔ s ∈ acc ∨ s ∈ l.
Proof.
  revert acc. induction l as [|x l IH]; intros acc Hnd; simpl foldl.
  - split; [done|]. intros s. rewrite elem_of_nil. tauto.
  - destruct (IH _ (Set_add_NoDup acc x Hnd)) as [H1 H2]. split; [done|].
    intros s. rewrite H2, Set_add_elem_of, elem_of_cons. tauto.
Qed.

Lemma first_occurrences_NoDup (l : list str) : NoDup (first_occurrences l).
Proof.
  rewrite <- Array_from_Set_first_occurrences.
  apply (Set_add_fold l []). constructor.
Qed.

Lemma first_occurrences_elem_of (l : list str) (s : str) :
  s ∈ first_occurrences l ↔ s ∈ l.
Proof.
  rewrite <- Array_from_Set_first_occurrences. unfold Array_from_Set.
  rewrite (proj2 (Set_add_fold l [] (NoDup_nil_2))). rewrite elem_of_nil. tauto.
Qed.

Lemma first_occurrences_length (l : list str) :
  length (first_occurrences l) = size (list_to_set l : gset str).
Proof.
  rewrite <- (size_list_to_set (C:=gset str)) by apply first_occurrences_NoDup.
  f_equal. apply set_eq. intros s.
  by rewrite !elem_of_list_to_set, first_occurrences_elem_of.
Qed.

Example first_occurrences_abab :
  first_occurrences [u "b"; u "a"; u "b"; u "c"; u "a"] = [u "b"; u "a"; u "c"].
Proof. reflexivity. Qed.

(** ** Properties of renderDocs *)

Lemma occurrences_filter (P : str → Prop) `{!∀ x, Decision (P x)}
    (s : str) (l : list str) :
  P s → occurrences s (filter P l) = occurrences s l.
Proof.
  intros Hs. induction l as [|x l IH]; [done|].
  rewrite filter_cons. destruct (decide (P x)) as [Hx|Hx].
  - by rewrite (occurrences_cons s x l), (occurrences_cons s x (filter P l)), IH.
  - rewrite (occurrences_cons s x l), IH.
    rewrite occurrences_other; [done|]. by intros ->.
Qed.

Lemma missing_is_not_unknown (unknown : list str) :
  MISSING_SLUGS ≠ unknown_slugs_message unknown.
Proof. unfold MISSING_SLUGS, unknown_slugs_message. simpl. discriminate. Qed.

Lemma missing_is_not_internal (s : str) :
  MISSING_SLUGS ≠ internal_error_message s.
Proof. unfold MISSING_SLUGS, internal_error_message. simpl. discriminate. Qed.

Lemma unknown_is_not_internal (unknown : list str) (s : str) :
  unknown_slugs_message unknown ≠ internal_error_message s.
Proof. unfold unknown_slugs_message, internal_error_message. simpl. discriminate. Qed.

Lemma join_sep_concat (sep b : str) (bs : list str) :
  join sep (b :: bs) = b ++ concat ((λ x, sep ++ x) <$> bs).
Proof.
  revert b. induction bs as [|x bs IH]; intros b.
  - simpl. by rewrite app_nil_r.
  - rewrite join_cons_cons, IH. simpl. by rewrite <- !app_assoc.
Qed.

Section CatalogFacts.
Context (pc : Colors) (DOC_LOOKUP : gmap str Doc).

Local Ltac open_isDocSlug := unfold isDocSlug, DOC_LOOKUP_at.
Local Ltac open_unknown_slugs := unfold unknown_slugs.
Local Ltac open_renderDocs := unfold renderDocs.
Local Ltac open_block_of := unfold block_of, DOC_LOOKUP_at.
Local Ltac open_showDocs := unfold showDocs.
Local Ltac open_renderBlock := unfold renderBlock.
Local Ltac open_join_blocks := unfold join_blocks.

Local Abbreviation isDocSlug := (isDocSlug DOC_LOOKUP).
Local Abbreviation unknown_slugs := (unknown_slugs DOC_LOOKUP).
Local Abbreviation block_of := (block_of pc DOC_LOOKUP).
Local Abbreviation renderDocs := (renderDocs pc DOC_LOOKUP).
Local Abbreviation showDocs := (showDocs pc DOC_LOOKUP).
Local Abbreviation renderBlock := (renderBlock pc).
Local Abbreviation join_blocks := (join_blocks pc).

Lemma isDocSlug_own (s : str) (doc : Doc) :
  DOC_LOOKUP !! s = Some doc → isDocSlug s = true.
Proof. intros H. open_isDocSlug. by rewrite H. Qed.

Lemma isDocSlug_inherited (s : str) :
  s ∈ OBJECT_PROTOTYPE_KEYS → isDocSlug s = true.
Proof.
  intros H. open_isDocSlug. destruct (DOC_LOOKUP !! s); [done|].
  by rewrite bool_decide_eq_true_2.
Qed.

Lemma isDocSlug_false (s : str) :
  isDocSlug s = false ↔ DOC_LOOKUP !! s = None ∧ s ∉ OBJECT_PROTOTYPE_KEYS.
Proof.
  open_isDocSlug. destruct (DOC_LOOKUP !! s) as [doc|].
  - split; [done | by intros [? _]].
  - destruct (decide (s ∈ OBJECT_PROTOTYPE_KEYS)) as [Hk|Hk].
    + rewrite bool_decide_eq_true_2 by done. split; [done | by intros [_ ?]].
    + by rewrite bool_decide_eq_false_2.
Qed.

Lemma block_of_own (s : str) (doc : Doc) :
  DOC_LOOKUP !! s = Some doc → block_of s = Return (renderBlock doc).
Proof. intros H. open_block_of. by rewrite H. Qed.

Lemma block_of_inherited (s : str) :
  DOC_LOOKUP !! s = None → s ∈ OBJECT_PROTOTYPE_KEYS →
  block_of s = Throw TypeError.
Proof.
  intros H Hk. open_block_of. rewrite H. by rewrite bool_decide_eq_true_2.
Qed.

Lemma block_of_returns (s : str) (block : str) :
  block_of s = Return block → is_Some (DOC_LOOKUP !! s).
Proof.
  open_block_of. destruct (DOC_LOOKUP !! s) as [doc|]; [by eauto|].
  by destruct (bool_decide _).
Qed.

Lemma requested_slugs_nil (requested : list str) :
  requested_slugs requested = [] ↔ Forall (λ r, trim r = []) requested.
Proof.
  unfold requested_slugs. induction requested as [|r l IH]; [done|].
  rewrite fmap_cons, filter_cons.
  destruct (decide (trim r ≠ [])) as [Hr|Hr].
  - split; [done|]. by inversion 1.
  - apply dec_stable in Hr. rewrite IH.
    split; [by constructor | by inversion 1].
Qed.

Lemma unknown_slugs_nil (slugs : list str) :
  unknown_slugs slugs = [] ↔ Forall (λ s, isDocSlug s = true) slugs.
Proof.
  open_unknown_slugs. induction slugs as [|s l IH]; [done|].
  rewrite filter_cons. destruct (decide (isDocSlug s = false)) as [Hs|Hs].
  - split; [done|]. inversion 1; congruence.
  - apply not_false_is_true in Hs. rewrite IH.
    split; [by constructor | by inversion 1].
Qed.

Lemma own_slugs_not_unknown (slugs : list str) :
  Forall (λ s, is_Some (DOC_LOOKUP !! s)) slugs → unknown_slugs slugs = [].
Proof.
  intros H. apply unknown_slugs_nil. eapply Forall_impl; [exact H|].
  intros s [doc Hs]. by eapply isDocSlug_own.
Qed.

Lemma renderDocs_missing (requested : list str) :
  requested_slugs requested = [] →
  renderDocs requested = Throw (Error MISSING_SLUGS).
Proof. intros H. open_renderDocs. by rewrite H. Qed.

Lemma renderDocs_unknown (requested : list str) :
  unknown_slugs (requested_slugs requested) ≠ [] →
  renderDocs requested
  = Throw (Error (unknown_slugs_message
                    (unknown_slugs (requested_slugs requested)))).
Proof.
  intros H. open_renderDocs.
  destruct (requested_slugs requested) as [|s l]; [done|]. simpl.
  destruct (unknown_slugs (s :: l)); [done|]. done.
Qed.

Lemma renderDocs_known (requested : list str) :
  requested_slugs requested ≠ [] →
  unknown_slugs (requested_slugs requested) = [] →
  renderDocs requested
  = bind (map_throwing block_of (Array_from_Set (requested_slugs requested)))
         (λ blocks, Return (join_blocks blocks)).
Proof.
  intros H1 H2. open_renderDocs.
  destruct (requested_slugs requested) as [|s l]; [done|]. simpl.
  by rewrite H2.
Qed.

(** Mapping the block callback over slugs that are all own keys of the
    table. *)
Lemma map_throwing_known (slugs : list str) :
  Forall (λ s, is_Some (DOC_LOOKUP !! s)) slugs →
  ∃ docs, Forall2 (λ s d, DOC_LOOKUP !! s = Some d) slugs docs ∧
          map_throwing block_of slugs = Return (renderBlock <$> docs).
Proof.
  induction 1 as [|s l [d Hs] _ (docs & Hd & Hm)].
  - exists []. by split; [constructor|].
  - exists (d :: docs). split; [by constructor|]. simpl.
    rewrite (block_of_own s d Hs). simpl. by rewrite Hm.
Qed.

(** The callback returns for own keys only. *)
Lemma map_throwing_returns (slugs : list str) (blocks : list str) :
  map_throwing block_of slugs = Return blocks →
  Forall (λ s, is_Some (DOC_LOOKUP !! s)) slugs.
Proof.
  revert blocks. induction slugs as [|s l IH]; intros blocks H; [constructor|].
  simpl in H. destruct (block_of s) as [b|e] eqn:Hb; [|done]. simpl in H.
  destruct (map_throwing block_of l) as [bs|e] eqn:Hl; [|done].
  constructor; [by eapply block_of_returns | by eapply IH].
Qed.

Lemma own_first_occurrences (slugs : list str) :
  Forall (λ s, is_Some (DOC_LOOKUP !! s)) slugs →
  Forall (λ s, is_Some (DOC_LOOKUP !! s)) (Array_from_Set slugs).
Proof.
  rewrite !Forall_forall. intros H s Hs. apply H.
  by rewrite Array_from_Set_first_occurrences, first_occurrences_elem_of in Hs.
Qed.

Lemma unknown_slugs_requested (requested : list str) :
  unknown_slugs (requested_slugs requested)
  = filter (λ x, isDocSlug x = false ∧ x ≠ []) (trim <$> requested).
Proof.
  open_unknown_slugs. unfold requested_slugs. apply list_filter_filter.
Qed.

(** The block of the program is the block in the spec's words. *)
Lemma renderBlock_show_block (doc : Doc) : renderBlock doc = show_block pc doc.
Proof.
  assert (Ht : titleLine pc doc ≠ []).
  { unfold titleLine. intros H. apply app_eq_nil in H as [_ H]. done. }
  open_renderBlock. unfold show_block. fold (titleLine pc doc).
  rewrite filter_cons_True by done.
  rewrite filter_cons_False by (by intros H).
  destruct (colorizeCodeReferences pc (trim (body doc))) as [|c text].
  - rewrite filter_cons_False by (by intros H). simpl. by rewrite app_nil_r.
  - by rewrite filter_cons_True.
Qed.

(** C1. For a request whose trimmed, non-blank slugs are at least one and
    all slugs of the catalog, [renderDocs] returns the text made of one
    block for each distinct slug, in the order of the first occurrences of
    the slugs, however often a slug is repeated: the block of the first
    document, then for each further document the rule between two empty
    lines and its block, and a final newline. A block is the header line of
    the document and its colourised body. *)
Theorem renderDocs_one_block_per_slug (requested : list str) :
  requested_slugs requested ≠ [] →
  Forall (λ s, is_Some (DOC_LOOKUP !! s)) (requested_slugs requested) →
  ∃ doc docs,
    Forall2 (λ s d, DOC_LOOKUP !! s = Some d)
            (first_occurrences (requested_slugs requested)) (doc :: docs) ∧
    renderDocs requested
    = Return (show_block pc doc
              ++ concat ((λ d, [NL; NL] ++ dim pc (u "---") ++ [NL; NL]
                               ++ show_block pc d) <$> docs)
              ++ [NL]) ∧
    NoDup (first_occurrences (requested_slugs requested)) ∧
    (∀ s, s ∈ first_occurrences (requested_slugs requested)
          ↔ s ∈ requested_slugs requested) ∧
    length (doc :: docs)
    = size (list_to_set (requested_slugs requested) : gset str).
Proof.
  intros Hne Hown.
  destruct (map_throwing_known _ (own_first_occurrences _ Hown))
    as (all & Hdocs & Hmap).
  rewrite Array_from_Set_first_occurrences in Hdocs.
  destruct all as [|doc docs].
  { apply Forall2_nil_inv_r in Hdocs.
    destruct (requested_slugs requested) as [|s l]; [done|].
    assert (s ∈ first_occurrences (s :: l)) as Hin
      by (rewrite first_occurrences_elem_of; left).
    rewrite Hdocs in Hin. by apply elem_of_nil in Hin. }
  exists doc, docs. split; [done|]. split.
  { rewrite renderDocs_known by (by try apply own_slugs_not_unknown).
    rewrite Hmap. simpl. f_equal. open_join_blocks.
    rewrite (join_sep_concat (block_separator pc)).
    rewrite renderBlock_show_block. unfold block_separator.
    rewrite <- !app_assoc. do 2 f_equal. rewrite <- list_fmap_compose.
    f_equal. apply list_fmap_ext. intros i d _. simpl.
    by rewrite renderBlock_show_block, <- !app_assoc. }
  split; [apply first_occurrences_NoDup|].
  split; [apply first_occurrences_elem_of|].
  rewrite <- first_occurrences_length. symmetry. by eapply Forall2_length.
Qed.

(** C6 (as amended). For a request that is empty or whose every element
    trims to the empty string, [renderDocs] throws an [Error] with the
    message that asks for at least one slug, and [showDocs] carries it in
    its failure channel. A request with a slug that [isDocSlug] rejects
    fails the same way, by a thrown [Error] of the same class, carried in
    the same channel: the two failures are no distinct types, and differ by
    their messages only, that of the second starting with the words for
    unknown slugs. *)
Theorem renderDocs_no_slugs (requested other : list str) :
  Forall (λ r, trim r = []) requested →
  (∃ r, r ∈ other ∧ trim r ≠ [] ∧ isDocSlug (trim r) = false) →
  renderDocs requested
  = Throw (Error (u "Please provide at least one doc slug.")) ∧
  showDocs requested
  = Failure (Error (u "Please provide at least one doc slug.")) ∧
  ∃ message,
    renderDocs other = Throw (Error message) ∧
    showDocs other = Failure (Error message) ∧
    u "Unknown doc slug(s): " `prefix_of` message ∧
    renderDocs other ≠ renderDocs requested ∧
    class_of (Error message)
    = class_of (Error (u "Please provide at least one doc slug.")).
Proof.
  intros Hblank (r & Hr & Hnb & Hunk).
  apply requested_slugs_nil, renderDocs_missing in Hblank.
  change MISSING_SLUGS with (u "Please provide at least one doc slug.") in Hblank.
  assert (Hother : unknown_slugs (requested_slugs other) ≠ []).
  { rewrite unknown_slugs_requested. intros Hnil.
    assert (trim r ∈ filter (λ x, isDocSlug x = false ∧ x ≠ []) (trim <$> other))
      as Hin by (apply list_elem_of_filter; split; [done|];
                 by apply list_elem_of_fmap_2).
    rewrite Hnil in Hin. by apply elem_of_nil in Hin. }
  apply renderDocs_unknown in Hother.
  split; [done|]. split; [open_showDocs; by rewrite Hblank|].
  exists (unknown_slugs_message (unknown_slugs (requested_slugs other))).
  split; [done|]. split; [open_showDocs; by rewrite Hother|].
  split; [by eexists|]. split; [|done].
  rewrite Hother, Hblank. intros Heq.
  apply (missing_is_not_unknown (unknown_slugs (requested_slugs other))).
  unfold MISSING_SLUGS. congruence.
Qed.

Lemma prototype_keys_trimmed :
  Forall (λ s, trim s = s ∧ s ≠ []) OBJECT_PROTOTYPE_KEYS.
Proof.
  unfold OBJECT_PROTOTYPE_KEYS.
  repeat (constructor; [split; [reflexivity | discriminate]|]). constructor.
Qed.

(** C9. A name inherited from [Object.prototype] that is no slug of the
    catalog passes [isDocSlug], yet what the table holds for it is no
    document: the callback gets past its guard and throws a [TypeError], and
    so does [renderDocs] for the request of that name. *)
Theorem inherited_name_passes_validation (s : str) :
  s ∈ OBJECT_PROTOTYPE_KEYS → DOC_LOOKUP !! s = None →
  isDocSlug s = true ∧
  block_of s = Throw TypeError ∧
  renderDocs [s] = Throw TypeError ∧
  showDocs [s] = Failure TypeError.
Proof.
  intros Hk Hnone.
  pose proof (isDocSlug_inherited s Hk) as Hin.
  pose proof (block_of_inherited s Hnone Hk) as Hb.
  assert (Hr : renderDocs [s] = Throw TypeError).
  { pose proof prototype_keys_trimmed as Ht. rewrite Forall_forall in Ht.
    destruct (Ht s Hk) as [Htrim Hne].
    assert (Hrs : requested_slugs [s] = [s]).
    { unfold requested_slugs. simpl. rewrite Htrim.
      by rewrite filter_cons_True. }
    rewrite renderDocs_known.
    - rewrite Hrs. change (Array_from_Set [s]) with [s]. simpl.
      by rewrite Hb.
    - by rewrite Hrs.
    - rewrite Hrs. apply unknown_slugs_nil. by repeat constructor. }
  split; [done|]. split; [done|]. split; [done|].
  open_showDocs. by rewrite Hr.
Qed.

End CatalogFacts.

(** ** The sample catalog *)

Example sample_show :
  renderDocs pc_plain sample_lookup sample_request
  = Return (u "## B (b)" ++ [NL] ++ u "Plain." ++ [NL; NL] ++ u "---" ++ [NL; NL]
            ++ u "## A (a)" ++ [NL] ++ u "Run `bunx tsc` on `main.ts` for `A`."
            ++ [NL]).
Proof. vm_compute. reflexivity. Qed.

Example sample_list :
  renderDocList pc_plain [doc_a; doc_b] (Some 10)
  = u "a  A" ++ [NL] ++ u "  x y z" ++ [NL; NL] ++ u "b  B" ++ [NL] ++ u "  "
    ++ [NL].
Proof. vm_compute. reflexivity. Qed.

Example sample_unknown :
  renderDocs pc_plain sample_lookup bogus_request
  = Throw (Error (u "Unknown doc slug(s): bogus, bogus2")).
Proof. vm_compute. reflexivity. Qed.

Lemma renderDocs_one_block_per_slug_witness :
  requested_slugs sample_request = [u "b"; u "a"; u "b"] ∧
  renderDocs pc_plain sample_lookup sample_request
  = Return (u "## B (b)" ++ [NL] ++ u "Plain." ++ [NL; NL] ++ u "---" ++ [NL; NL]
            ++ u "## A (a)" ++ [NL] ++ u "Run `bunx tsc` on `main.ts` for `A`."
            ++ [NL]).
Proof.
  assert (H0 : requested_slugs sample_request = [u "b"; u "a"; u "b"])
    by reflexivity.
  assert (H1 : requested_slugs sample_request ≠ []) by (by rewrite H0).
  assert (Hb : sample_lookup !! u "b" = Some doc_b) by reflexivity.
  assert (Ha : sample_lookup !! u "a" = Some doc_a) by reflexivity.
  assert (H2 : Forall (λ s, is_Some (sample_lookup !! s))
                      (requested_slugs sample_request)).
  { rewrite H0. repeat (constructor; [by eexists|]). constructor. }
  split; [done|].
  destruct (renderDocs_one_block_per_slug pc_plain sample_lookup sample_request
              H1 H2) as (doc & docs & Hdocs & Hout & _).
  rewrite Hout.
  change (first_occurrences (requested_slugs sample_request))
    with [u "b"; u "a"] in Hdocs.
  apply Forall2_cons_1 in Hdocs as [Hd Hdocs].
  destruct docs as [|doc' docs]; [by apply Forall2_nil_inv_r in Hdocs|].
  apply Forall2_cons_1 in Hdocs as [Hd' Hdocs].
  apply Forall2_nil_inv_l in Hdocs. subst docs.
  rewrite Hb in Hd. rewrite Ha in Hd'.
  injection Hd as <-. injection Hd' as <-. reflexivity.
Defined.

(** The two failures are thrown as values of one class: the claim that they
    are distinct failure types fails already on the empty request and the
    request of one unknown slug. *)
Lemma missing_and_unknown_same_class :
  renderDocs pc_plain sample_lookup []
  = Throw (Error (u "Please provide at least one doc slug.")) ∧
  renderDocs pc_plain sample_lookup [u "bogus"]
  = Throw (Error (u "Unknown doc slug(s): bogus")) ∧
  showDocs pc_plain sample_lookup []
  = Failure (Error (u "Please provide at least one doc slug.")) ∧
  showDocs pc_plain sample_lookup [u "bogus"]
  = Failure (Error (u "Unknown doc slug(s): bogus")) ∧
  ¬ (class_of (Error (u "Please provide at least one doc slug."))
     ≠ class_of (Error (u "Unknown doc slug(s): bogus"))).
Proof. repeat split; try (vm_compute; reflexivity). intros H. by apply H. Qed.

Lemma renderDocs_no_slugs_witness :
  Forall (λ r, trim r = []) [[]; u "  "] ∧
  renderDocs pc_plain sample_lookup [[]; u "  "]
  = Throw (Error (u "Please provide at least one doc slug.")) ∧
  renderDocs pc_plain sample_lookup bogus_request
  ≠ renderDocs pc_plain sample_lookup [[]; u "  "].
Proof.
  assert (H : Forall (λ r, trim r = []) [[]; u "  "])
    by (repeat (constructor; [vm_compute; reflexivity|]); constructor).
  assert (Ho : ∃ r, r ∈ bogus_request ∧ trim r ≠ [] ∧
                    isDocSlug sample_lookup (trim r) = false).
  { exists (u "bogus"). split; [right; left|].
    split; [vm_compute; discriminate | vm_compute; reflexivity]. }
  destruct (renderDocs_no_slugs pc_plain sample_lookup _ bogus_request H Ho)
    as (Hm & _ & message & _ & _ & _ & Hne & _).
  split; [done|]. split; [done|]. done.
Defined.

Lemma inherited_name_passes_validation_witness :
  u "toString" ∈ OBJECT_PROTOTYPE_KEYS ∧
  isDocSlug sample_lookup (u "toString") = true ∧
  renderDocs pc_plain sample_lookup [u "toString"] = Throw TypeError.
Proof.
  assert (Hk : u "toString" ∈ OBJECT_PROTOTYPE_KEYS)
    by (apply (bool_decide_unpack _); vm_compute; exact I).
  assert (Hn : sample_lookup !! u "toString" = None) by reflexivity.
  destruct (inherited_name_passes_validation pc_plain sample_lookup _ Hk Hn)
    as (H1 & _ & H3 & _).
  split; [done|]. split; done.
Defined.

(** C2. A requested name that the table inherits is not reported: beside a
    slug of the catalog it makes [renderDocs] throw a [TypeError], and
    beside an unknown slug the message names the unknown slug only. *)
Theorem inherited_names_are_not_reported :
  renderDocs pc_plain sample_lookup [u "a"; u "constructor"] = Throw TypeError ∧
  sample_lookup !! u "constructor" = None ∧
  renderDocs pc_plain sample_lookup [u "bogus"; u "toString"]
  = Throw (Error (u "Unknown doc slug(s): bogus")) ∧
  sample_lookup !! u "toString" = None.
Proof. repeat split; vm_compute; reflexivity. Qed.

(** C10. A repeated name that the table inherits is named not once: the
    request throws a [TypeError]; a repeated slug that [isDocSlug] rejects is
    named once for each occurrence. *)
Theorem repeated_inherited_name_is_not_named :
  renderDocs pc_plain sample_lookup [u "toString"; u "toString"]
  = Throw TypeError ∧
  renderDocs pc_plain sample_lookup repeated_bogus_request
  = Throw (Error (u "Unknown doc slug(s): bogus, bogus")).
Proof. split; vm_compute; reflexivity. Qed.

(** ** Substitution over backtick spans *)

(** A style enclosed in another: the enclosing one is opened again after
    the closing sequence of the enclosed one. *)
Example formatter_reopens :
  bold pc_ansi (u "a" ++ dim pc_ansi (u "b") ++ u "c")
  = esc "[1m" ++ u "a" ++ esc "[2m" ++ u "b" ++ esc "[22m" ++ esc "[1m"
    ++ u "c" ++ esc "[22m".
Proof. vm_compute. reflexivity. Qed.

Example replace_any :
  replace_spans inner_any bracket (u "a `b` c ``d` `e")
  = u "a [`b`] c `[`d`] `e".
Proof. reflexivity. Qed.

Example replace_bunx :
  replace_spans inner_bunx bracket (u "`bunx ` `bunx a` `bun run a` `bunx")
  = u "`bunx ` [`bunx a`] `bun run a` `bunx".
Proof. reflexivity. Qed.

Example replace_file :
  replace_spans inner_file bracket (u "`a.ts` `.ts` `a.tsx` `b.json` `c.md`")
  = u "[`a.ts`] `.ts` `a.tsx` [`b.json`] [`c.md`]".
Proof. reflexivity. Qed.

(** A substitution changes matched spans only: with a formatter that leaves
    its argument as it is, the text stays as it is. *)
Lemma replace_from_id (inner : str → bool) (s : str) (span : option str) :
  replace_from inner id span s
  = match span with None => [] | Some x => BACKTICK :: x end ++ s.
Proof.
  revert span. induction s as [|c s IH]; intros span; simpl.
  - destruct span; by rewrite ?app_nil_r.
  - destruct span as [x|]; destruct (c =? BACKTICK)%N eqn:Hc; rewrite ?IH.
    + apply N.eqb_eq in Hc. subst c.
      destruct (inner x); unfold id; simpl; by rewrite <- ?app_assoc.
    + simpl. by rewrite <- app_assoc.
    + apply N.eqb_eq in Hc. by subst c.
    + done.
Qed.

Lemma colorize_plain (text : str) : colorizeCodeReferences pc_plain text = text.
Proof.
  unfold colorizeCodeReferences, replace_spans. simpl.
  by rewrite !(replace_from_id _ _ None).
Qed.

(** C3. The show command takes positional slugs only, and its handler is
    [showDocs] of those. With [--all] in the place of a slug the handler
    fails with the unknown-slug error, while the request for every slug of
    the catalog succeeds. *)
Theorem show_all_flag_is_not_every_slug :
  showDocs pc_plain sample_lookup [u "--all"]
  = Failure (Error (u "Unknown doc slug(s): --all")) ∧
  showDocs pc_plain sample_lookup [u "a"; u "b"]
  = Success (join_blocks pc_plain
               [renderBlock pc_plain doc_a; renderBlock pc_plain doc_b]).
Proof. split; vm_compute; reflexivity. Qed.

(** C5. With colours on, the last substitution matches again the spans the
    earlier ones have rewritten: a command span is wrapped in bold, green
    and then dim, a file span in cyan and then dim. *)
Theorem colorize_rewrites_rewritten_spans :
  colorizeCodeReferences pc_ansi (u "`bunx x`")
  = esc "[1m" ++ esc "[32m" ++ esc "[2m" ++ u "`bunx x`"
    ++ esc "[22m" ++ esc "[39m" ++ esc "[22m" ∧
  colorizeCodeReferences pc_ansi (u "`a.ts`")
  = esc "[36m" ++ esc "[2m" ++ u "`a.ts`" ++ esc "[22m" ++ esc "[39m" ∧
  colorizeCodeReferences pc_ansi (u "`x`")
  = esc "[2m" ++ u "`x`" ++ esc "[22m".
Proof. repeat split; vm_compute; reflexivity. Qed.

(** * Further properties *)

(** ** Words and pieces *)

Lemma split_from_spaceless_pieces (s : str) (b : bool) (piece : str) :
  spaceless piece → Forall spaceless (split_from b piece s).
Proof.
  revert b piece. induction s as [|c s IH]; intros b piece Hp; simpl.
  - by repeat constructor.
  - destruct (is_space c) eqn:Hc.
    + destruct b; [by apply IH|]. constructor; [done|]. apply IH. constructor.
    + apply IH. apply Forall_app. split; [done|]. by repeat constructor.
Qed.

Lemma split_ws_spaceless (text : str) : Forall spaceless (split_ws text).
Proof. apply split_from_spaceless_pieces. constructor. Qed.

Lemma split_from_all_empty (s : str) (b : bool) (piece : str) :
  Forall (λ w, w = []) (split_from b piece s) → piece = [] ∧ blank s.
Proof.
  unfold blank. revert b piece. induction s as [|c s IH]; intros b piece H; simpl in H.
  - inversion H; subst. by split; [|constructor].
  - destruct (is_space c) eqn:Hc.
    + destruct b.
      * destruct (IH _ _ H) as [-> Hs]. by split; [|constructor].
      * inversion H as [|? ? -> Ht]; subst.
        destruct (IH _ _ Ht) as [_ Hs]. by split; [|constructor].
    + destruct (IH _ _ H) as [Hp _]. by destruct piece.
Qed.

Lemma not_blank_has_word (text : str) : ¬ blank text → words_of text ≠ [].
Proof.
  intros Hnb Hw. apply Hnb. apply (split_from_all_empty text false []).
  fold (split_ws text). apply Forall_forall. intros w Hin.
  destruct (decide (w = [])) as [|Hne]; [done|].
  assert (w ∈ words_of text) as Hin'
    by (unfold words_of; by apply list_elem_of_filter).
  rewrite Hw in Hin'. by apply elem_of_nil in Hin'.
Qed.

Lemma words_after_run (s : str) :
  filter (λ w, w ≠ []) (split_from true [] s)
  = filter (λ w : str, w ≠ []) (split_from false [] s).
Proof.
  destruct s as [|c s]; simpl; [done|].
  destruct (is_space c); [|done]. by rewrite filter_cons_False by (by intros H).
Qed.

Lemma words_split_app (a s : str) (c : N) :
  is_space c = true →
  ∀ b piece, (b = true → piece = []) →
    filter (λ w, w ≠ []) (split_from b piece (a ++ c :: s))
    = filter (λ w, w ≠ []) (split_from b piece a)
      ++ filter (λ w : str, w ≠ []) (split_from false [] s).
Proof.
  intros Hc. induction a as [|d a IH]; intros b piece Hb; simpl.
  - rewrite Hc. destruct b.
    + rewrite (Hb eq_refl), words_after_run.
      by rewrite filter_cons_False by (by intros H).
    + rewrite !filter_cons, filter_nil, words_after_run.
      by destruct (decide (piece ≠ [])).
  - destruct (is_space d).
    + destruct b; [by apply IH|].
      rewrite !filter_cons, (IH true []) by done. by destruct (decide (piece ≠ [])).
    + by apply IH.
Qed.

Lemma words_of_app_space (a b : str) (c : N) :
  is_space c = true → words_of (a ++ c :: b) = words_of a ++ words_of b.
Proof. intros Hc. unfold words_of, split_ws. by apply words_split_app. Qed.

Lemma split_from_spaceless (w : str) :
  spaceless w → ∀ piece, split_from false piece w = [piece ++ w].
Proof.
  induction 1 as [|c w Hc _ IH]; intros piece; simpl.
  - by rewrite app_nil_r.
  - rewrite Hc, IH. by rewrite <- app_assoc.
Qed.

Lemma words_of_piece (w : str) :
  spaceless w → words_of w = filter (λ x, x ≠ []) [w].
Proof. intros H. unfold words_of, split_ws. by rewrite split_from_spaceless. Qed.

(** ** More on the wrapping loop *)

Lemma concat_words_snoc (lines : list str) (cur : str) :
  concat (words_of <$> (lines ++ [cur]))
  = concat (words_of <$> lines) ++ words_of cur.
Proof. rewrite fmap_app, concat_app. simpl. by rewrite app_nil_r. Qed.

Lemma wrap_loop_words (W : Z) (ws : list str) :
  Forall spaceless ws →
  ∀ lines cur,
    concat (words_of <$> wrap_finish (foldl (wrap_step W) (lines, cur) ws))
    = concat (words_of <$> lines) ++ words_of cur ++ filter (λ w, w ≠ []) ws.
Proof.
  induction 1 as [|w ws Hw _ IH]; intros lines cur; simpl.
  - rewrite filter_nil, app_nil_r. destruct (0 <? len cur) eqn:Hc.
    + apply concat_words_snoc.
    + assert (cur = []) as -> by (apply len_nil_iff; pose proof (len_nonneg cur); lia).
      by rewrite app_nil_r.
  - assert (Hfw : filter (λ x, x ≠ []) (w :: ws)
                  = words_of w ++ filter (λ x : str, x ≠ []) ws).
    { rewrite (words_of_piece w Hw), !filter_cons, filter_nil.
      by destruct (decide (w ≠ [])). }
    rewrite Hfw. destruct (len cur =? 0) eqn:Hc.
    + apply Z.eqb_eq, len_nil_iff in Hc. subst cur. by rewrite IH.
    + destruct (len cur + 1 + len w <=? W).
      * rewrite IH, (words_of_app_space cur w SP) by done. by rewrite <- !app_assoc.
      * rewrite IH, concat_words_snoc. by rewrite <- !app_assoc.
Qed.

Lemma wrapText_words (text : str) (W : Z) :
  concat (words_of <$> wrapText text W) = words_of text.
Proof.
  unfold wrapText.
  destruct (bool_decide (trim text = []) || (W <=? 0)).
  - simpl. by rewrite app_nil_r.
  - unfold wrap_words. rewrite wrap_loop_words by apply split_ws_spaceless.
    done.
Qed.

(** X1. Wrapping keeps the words: for every text and width, the words of
    the lines of [wrapText], line after line, are the words of the text, in
    the same order; no word is lost, split, merged or moved. *)
Theorem wrapText_keeps_words (text : str) (W : Z) :
  concat (words_of <$> wrapText text W) = words_of text.
Proof. apply wrapText_words. Qed.

Lemma wrap_loop_nonempty_lines (W : Z) (ws : list str) :
  ∀ lines cur,
    Forall (λ l, l ≠ []) lines →
    Forall (λ l, l ≠ []) (wrap_finish (foldl (wrap_step W) (lines, cur) ws)).
Proof.
  induction ws as [|w ws IH]; intros lines cur Hl; simpl.
  - destruct (0 <? len cur) eqn:Hc; [|done].
    apply Forall_app. split; [done|]. repeat constructor.
    intros ->. by apply Z.ltb_lt in Hc.
  - destruct (len cur =? 0) eqn:Hc; [by apply IH|].
    destruct (len cur + 1 + len w <=? W); [by apply IH|].
    apply IH, Forall_app. split; [done|]. repeat constructor.
    intros ->. by apply Z.eqb_neq in Hc.
Qed.

(** X2. [wrapText] always gives at least one line, and for a text that is
    not the empty string none of its lines is empty. *)
Theorem wrapText_lines_not_empty (text : str) (W : Z) :
  wrapText text W ≠ [] ∧
  (text ≠ [] → Forall (λ l, l ≠ []) (wrapText text W)).
Proof.
  split.
  - intros Hnil. pose proof (wrapText_words text W) as Hk.
    rewrite Hnil in Hk. simpl in Hk.
    unfold wrapText in Hnil.
    destruct (decide (trim text = [])) as [Hb|Hb].
    + by rewrite bool_decide_eq_true_2 in Hnil.
    + apply (not_blank_has_word text); [|by symmetry].
      intros Hbl. by apply Hb, trim_nil.
  - intros Hne. unfold wrapText.
    destruct (bool_decide (trim text = []) || (W <=? 0)).
    + by repeat constructor.
    + by apply wrap_loop_nonempty_lines.
Qed.

Lemma wrapText_lines_not_empty_witness :
  u " a  b " ≠ [] ∧ wrapText (u " a  b ") 1 = [u "a"; u "b"] ∧
  Forall (λ l, l ≠ []) (wrapText (u " a  b ") 1).
Proof.
  assert (H : u " a  b " ≠ []) by discriminate.
  split; [done|]. split; [reflexivity|].
  by apply (wrapText_lines_not_empty (u " a  b ") 1).
Defined.

Lemma tidy_line_word (w : str) : spaceless w → w ≠ [] → tidy_line w.
Proof.
  intros Hw Hne. unfold spaceless in Hw. rewrite Forall_forall in Hw. split.
  - destruct w as [|c w]; [done|]. exists c. split; [done|]. apply Hw. left.
  - intros c Hc Hs. rewrite (Hw c Hc) in Hs. done.
Qed.

Lemma tidy_line_append (cur w : str) :
  tidy_line cur → spaceless w → tidy_line (cur ++ SP :: w).
Proof.
  intros [(c & Hh & Hc) Hsp] Hw. unfold spaceless in Hw.
  rewrite Forall_forall in Hw. split.
  - exists c. split; [|done]. by destruct cur.
  - intros d Hd Hs. apply elem_of_app in Hd as [Hd|Hd]; [by apply Hsp|].
    apply elem_of_cons in Hd as [->|Hd]; [done|].
    rewrite (Hw d Hd) in Hs. done.
Qed.

Lemma wrap_loop_tidy (W : Z) (ws : list str) :
  Forall spaceless ws →
  ∀ lines cur,
    Forall tidy_line lines → cur = [] ∨ tidy_line cur →
    Forall tidy_line (wrap_finish (foldl (wrap_step W) (lines, cur) ws)).
Proof.
  induction 1 as [|w ws Hw _ IH]; intros lines cur Hl Hc; simpl.
  - destruct (0 <? len cur) eqn:Hlen; [|done].
    destruct Hc as [->|Hc]; [done|].
    apply Forall_app. split; [done|]. by constructor.
  - assert (Hw' : w = [] ∨ tidy_line w).
    { destruct (decide (w = [])); [by left | right; by apply tidy_line_word]. }
    destruct (len cur =? 0) eqn:Hlen; [by apply IH|].
    destruct Hc as [->|Hc]; [done|].
    destruct (len cur + 1 + len w <=? W).
    + apply IH; [done|]. right. by apply tidy_line_append.
    + apply IH; [|done]. apply Forall_app. split; [done|]. by constructor.
Qed.

(** X3. Wrapping normalises whitespace: for a text that is not blank and a
    positive width, every line of [wrapText] starts with a character of a
    word, and the only whitespace characters in it are plain spaces (tabs,
    newlines and the like of the text are gone). *)
Theorem wrapText_tidy_lines (text : str) (W : Z) :
  ¬ blank text → 0 < W → Forall tidy_line (wrapText text W).
Proof.
  intros Hnb HW. unfold wrapText.
  rewrite bool_decide_eq_false_2 by (by rewrite trim_nil).
  assert ((W <=? 0) = false) as -> by lia. simpl.
  apply wrap_loop_tidy; [apply split_ws_spaceless | constructor | by left].
Qed.

Lemma wrapText_tidy_lines_witness :
  wrapText ([9%N] ++ u "ab" ++ [10%N; 9%N] ++ u "c") 1 = [u "ab"; u "c"] ∧
  Forall tidy_line (wrapText ([9%N] ++ u "ab" ++ [10%N; 9%N] ++ u "c") 1).
Proof.
  split; [reflexivity|].
  apply wrapText_tidy_lines; [|lia].
  intros H. apply trim_nil in H. vm_compute in H. discriminate.
Defined.

Lemma ends_in_word_not_blank (text : str) : ends_in_word text → ¬ blank text.
Proof.
  intros (c & Hl & Hc) Hb. unfold blank in Hb.
  rewrite Forall_forall in Hb. apply last_Some_elem_of in Hl.
  specialize (Hb c Hl). congruence.
Qed.

(** For a text that ends in a word the loop computes the greedy lines of
    its words. *)
Lemma wrapText_greedy_words (text : str) (W : Z) :
  ends_in_word text → 0 < W → wrapText text W = greedy_wrap W (words_of text).
Proof.
  intros Hend HW. unfold wrapText.
  rewrite bool_decide_eq_false_2
    by (rewrite trim_nil; by apply ends_in_word_not_blank).
  assert ((W <=? 0) = false) as -> by lia. simpl.
  destruct Hend as (c & Hl & Hc).
  destruct (split_ws_words text c Hl Hc) as [Hne [-> | ->]].
  - by apply wrap_words_greedy.
  - rewrite wrap_words_skip_empty. by apply wrap_words_greedy.
Qed.

Lemma join_merge_head (cur w : str) (ws : list str) :
  join [SP] ((cur ++ [SP] ++ w) :: ws) = join [SP] (cur :: w :: ws).
Proof.
  rewrite (join_cons_cons [SP] cur w ws). destruct ws as [|x ws]; [done|].
  rewrite !join_cons_cons. by rewrite <- !app_assoc.
Qed.

Ltac len_norm := len_simpl; change (len []) with 0 in *.

Lemma len_join_head (w : str) (ws : list str) :
  len w <= len (join [SP] (w :: ws)).
Proof.
  destruct ws as [|x ws]; [simpl; lia|].
  rewrite join_cons_cons. pose proof (len_nonneg (join [SP] (x :: ws))).
  len_norm. lia.
Qed.

Lemma greedy_lines_fit (W : Z) (ws : list str) :
  ∀ cur, len (join [SP] (cur :: ws)) <= W →
         greedy_lines W cur ws = [join [SP] (cur :: ws)].
Proof.
  induction ws as [|w ws IH]; intros cur Hfit; [done|].
  simpl greedy_lines.
  assert (len cur + 1 + len w <= W) as Hw.
  { rewrite join_cons_cons in Hfit. pose proof (len_join_head w ws).
    len_norm. lia. }
  rewrite (proj2 (Z.leb_le _ _) Hw).
  pose proof (join_merge_head cur w ws) as Hm.
  rewrite IH; [exact (f_equal (λ x, [x]) Hm)|].
  change (len (join [SP] ((cur ++ [SP] ++ w) :: ws)) <= W). by rewrite Hm.
Qed.

(** X4. A text that fits is not wrapped: when the text ends in a word and
    its words joined by single spaces are at most W long (W > 0),
    [wrapText] gives that one line. *)
Theorem wrapText_one_line_when_it_fits (text : str) (W : Z) :
  ends_in_word text → 0 < W →
  len (join [SP] (words_of text)) <= W →
  wrapText text W = [join [SP] (words_of text)].
Proof.
  intros Hend HW Hfit. rewrite wrapText_greedy_words by done.
  destruct (words_of text) as [|w ws] eqn:Hws.
  - exfalso. by apply (not_blank_has_word text (ends_in_word_not_blank _ Hend)).
  - simpl greedy_wrap. by apply greedy_lines_fit.
Qed.

Lemma wrapText_one_line_when_it_fits_witness :
  ends_in_word (u "x  y z") ∧ wrapText (u "x  y z") 5 = [u "x y z"].
Proof.
  assert (He : ends_in_word (u "x  y z")) by (exists 122%N; by vm_compute).
  split; [done|].
  apply (wrapText_one_line_when_it_fits (u "x  y z") 5 He); [lia|].
  vm_compute. discriminate.
Defined.

Lemma greedy_lines_head_word (W : Z) (ws : list str) :
  ∀ cur, words_of cur ≠ [] →
    ∃ l ls, greedy_lines W cur ws = l :: ls ∧
            head (words_of l) = head (words_of cur).
Proof.
  induction ws as [|w ws IH]; intros cur Hc; simpl; [by eauto|].
  destruct (len cur + 1 + len w <=? W); [|by eauto].
  assert (Hw : words_of (cur ++ [SP] ++ w) = words_of cur ++ words_of w)
    by (by apply words_of_app_space).
  destruct (IH (cur ++ [SP] ++ w)) as (l & ls & Hg & Hh).
  { rewrite Hw. by destruct (words_of cur). }
  exists l, ls. split; [done|]. rewrite Hh, Hw. by destruct (words_of cur).
Qed.

Lemma greedy_lines_breaks (W : Z) (ws : list str) :
  Forall (λ w, spaceless w ∧ w ≠ []) ws →
  ∀ cur i l1 l2, words_of cur ≠ [] →
    greedy_lines W cur ws !! i = Some l1 →
    greedy_lines W cur ws !! S i = Some l2 →
    ∃ w, w ∈ ws ∧ head (words_of l2) = Some w ∧ W < len l1 + 1 + len w.
Proof.
  induction 1 as [|w ws [Hw Hne] _ IH]; intros cur i l1 l2 Hc; simpl; [done|].
  assert (Hww : words_of w = [w]).
  { rewrite words_of_piece by done. by rewrite filter_cons_True. }
  destruct (len cur + 1 + len w <=? W) eqn:Hfit.
  - intros H1 H2. destruct (IH (cur ++ [SP] ++ w) i l1 l2) as (x & ? & ? & ?);
      [|done|done|].
    + change (cur ++ [SP] ++ w) with (cur ++ SP :: w).
      rewrite (words_of_app_space cur w SP) by done. by destruct (words_of cur).
    + exists x. split; [by right | done].
  - destruct i as [|i]; simpl.
    + intros [= <-] H2.
      destruct (greedy_lines_head_word W ws w) as (l & ls & Hg & Hh);
        [by rewrite Hww|].
      rewrite Hg in H2. simpl in H2. injection H2 as <-.
      exists w. split; [left|]. split; [by rewrite Hh, Hww|]. lia.
    + intros H1 H2. destruct (IH w i l1 l2) as (x & ? & ? & ?);
        [by rewrite Hww | done | done |].
      exists x. split; [by right | done].
Qed.

(** X5. A line is only broken when it has to be: for a text that ends in a
    word and W > 0, whenever a line of [wrapText] is followed by another,
    the first word of the following line would not have fitted on it. *)
Theorem wrapText_breaks_only_when_forced
    (text : str) (W : Z) (i : nat) (l1 l2 : str) :
  ends_in_word text → 0 < W →
  wrapText text W !! i = Some l1 → wrapText text W !! S i = Some l2 →
  ∃ w, w ∈ words_of text ∧ head (words_of l2) = Some w ∧
       W < len l1 + 1 + len w.
Proof.
  intros Hend HW. rewrite wrapText_greedy_words by done.
  assert (Hall : Forall (λ w, spaceless w ∧ w ≠ []) (words_of text)).
  { apply Forall_forall. intros w Hin. unfold words_of in Hin.
    apply list_elem_of_filter in Hin as [Hne Hin]. split; [|done].
    pose proof (split_ws_spaceless text) as Hs.
    rewrite Forall_forall in Hs. by apply Hs. }
  destruct Hall as [|w ws [Hw Hne] Hws]; simpl; [done|].
  intros H1 H2.
  destruct (greedy_lines_breaks W ws Hws w i l1 l2) as (x & ? & ? & ?);
    [|done|done|].
  - rewrite words_of_piece by done. by rewrite filter_cons_True.
  - exists x. split; [by right | done].
Qed.

Lemma wrapText_breaks_only_when_forced_witness :
  ends_in_word (u "to be or") ∧
  wrapText (u "to be or") 6 = [u "to be"; u "or"] ∧
  ∃ w, w ∈ words_of (u "to be or") ∧ head (words_of (u "or")) = Some w ∧
       6 < len (u "to be") + 1 + len w.
Proof.
  assert (He : ends_in_word (u "to be or")) by (exists 114%N; by vm_compute).
  split; [done|]. split; [reflexivity|].
  apply (wrapText_breaks_only_when_forced (u "to be or") 6 0 _ _ He);
    [lia | reflexivity | reflexivity].
Defined.

(** ** Widths of the list rendering *)

(** X6. The terminal width is never below [MIN_TERMINAL_WIDTH] and is the
    reported number of columns when that is at least the minimum; the
    description width is always the terminal width less the indent, so the
    floor [MIN_DESCRIPTION_WIDTH] never takes effect and the width passed to
    [wrapText] is at least 38. *)
Theorem descriptionWidth_is_width_less_indent (columns : option Z) :
  MIN_TERMINAL_WIDTH <= getTerminalWidth columns ∧
  descriptionWidth columns = getTerminalWidth columns - 2 ∧
  38 <= descriptionWidth columns ∧
  (∀ w, columns = Some w → MIN_TERMINAL_WIDTH <= w →
        getTerminalWidth columns = w) ∧
  (columns = None → getTerminalWidth columns = FALLBACK_TERMINAL_WIDTH).
Proof.
  unfold descriptionWidth, getTerminalWidth, MIN_DESCRIPTION_WIDTH,
    MIN_TERMINAL_WIDTH, FALLBACK_TERMINAL_WIDTH.
  change (len (u "  ")) with 2.
  repeat split; try lia.
  - intros w -> Hw. lia.
  - intros ->. lia.
Qed.

(** X7. With formatters that keep the length of the text (colours off), the
    description lines of a card fit the terminal: for a description that is
    not blank and whose words are at most the description width long, every
    line after the title line is at most [getTerminalWidth] long. *)
Theorem cardLines_fit_terminal
    (pc : Colors) (columns : option Z) (doc : Doc) :
  (∀ s, len (dim pc s) = len s) →
  ¬ blank (description doc) →
  Forall (λ w, len w <= descriptionWidth columns) (words_of (description doc)) →
  Forall (λ line, len line <= getTerminalWidth columns)
         (tail (cardLines pc columns doc)).
Proof.
  intros Hdim Hnb Hws. unfold cardLines. cbn [tail].
  pose proof (descriptionWidth_positive columns) as Hpos.
  assert (Hw : Forall (λ l, len l <= descriptionWidth columns)
                 (wrapText (description doc) (descriptionWidth columns))).
  { unfold wrapText.
    rewrite bool_decide_eq_false_2 by (by rewrite trim_nil).
    assert ((descriptionWidth columns <=? 0) = false) as -> by lia. simpl.
    unfold wrap_words.
    apply wrap_loop_bound; [by apply words_bound_pieces | done |].
    change (len []) with 0. lia. }
  apply Forall_fmap. eapply Forall_impl; [exact Hw|].
  intros line Hl. unfold compose. cbv beta in *. rewrite len_app, Hdim. change (len (u "  ")) with 2.
  assert (descriptionWidth columns = getTerminalWidth columns - 2) as Heq.
  { unfold descriptionWidth, getTerminalWidth, MIN_DESCRIPTION_WIDTH,
      MIN_TERMINAL_WIDTH. change (len (u "  ")) with 2. lia. }
  lia.
Qed.

Lemma cardLines_fit_terminal_witness :
  cardLines pc_plain (Some 10) doc_a = [u "a  A"; u "  x y z"] ∧
  Forall (λ line, len line <= getTerminalWidth (Some 10))
         (tail (cardLines pc_plain (Some 10) doc_a)).
Proof.
  split; [reflexivity|].
  apply cardLines_fit_terminal.
  - intros s. reflexivity.
  - intros H. apply trim_nil in H. vm_compute in H. discriminate.
  - vm_compute. repeat constructor; discriminate.
Defined.

(** The list rendering is its cards, joined by an empty line. *)
Lemma renderDocList_cards (pc : Colors) (DOCS : list Doc) (columns : option Z) :
  renderDocList pc DOCS columns
  = join [NL; NL] (join [NL] ∘ cardLines pc columns <$> DOCS) ++ [NL].
Proof. reflexivity. Qed.

(** ** Substitution on texts with at most one span *)

Lemma replace_from_outside (inner : str → bool) (f : str → str)
    (pre rest : str) :
  BACKTICK ∉ pre →
  replace_from inner f None (pre ++ rest) = pre ++ replace_from inner f None rest.
Proof.
  induction pre as [|c pre IH]; intros Hn; [done|].
  apply not_elem_of_cons in Hn as [Hc Hn]. simpl.
  rewrite (proj2 (N.eqb_neq c BACKTICK)) by congruence. by rewrite IH.
Qed.

Lemma replace_from_inside (inner : str → bool) (f : str → str)
    (y rest : str) :
  BACKTICK ∉ y →
  ∀ x, replace_from inner f (Some x) (y ++ rest)
       = replace_from inner f (Some (x ++ y)) rest.
Proof.
  induction y as [|c y IH]; intros Hn x; [by rewrite app_nil_r|].
  apply not_elem_of_cons in Hn as [Hc Hn]. simpl.
  rewrite (proj2 (N.eqb_neq c BACKTICK)) by congruence.
  rewrite IH by done. by rewrite <- app_assoc.
Qed.

Lemma replace_spans_no_backtick (inner : str → bool) (f : str → str)
    (text : str) :
  BACKTICK ∉ text → replace_spans inner f text = text.
Proof.
  intros Hn. unfold replace_spans.
  rewrite <- (app_nil_r text) at 1. rewrite replace_from_outside by done.
  simpl. by rewrite app_nil_r.
Qed.

Lemma replace_spans_open_backtick (inner : str → bool) (f : str → str)
    (pre post : str) :
  BACKTICK ∉ pre → BACKTICK ∉ post →
  replace_spans inner f (pre ++ BACKTICK :: post) = pre ++ BACKTICK :: post.
Proof.
  intros Hpre Hpost. unfold replace_spans.
  rewrite replace_from_outside by done. simpl. f_equal.
  rewrite <- (app_nil_r post) at 1. by rewrite replace_from_inside.
Qed.

Lemma replace_spans_lone_span (inner : str → bool) (f : str → str)
    (pre x post : str) :
  BACKTICK ∉ pre → BACKTICK ∉ x → BACKTICK ∉ post →
  replace_spans inner f (pre ++ BACKTICK :: x ++ BACKTICK :: post)
  = pre ++ (if inner x then f (BACKTICK :: x ++ [BACKTICK])
            else BACKTICK :: x ++ [BACKTICK]) ++ post.
Proof.
  intros Hpre Hx Hpost. unfold replace_spans.
  rewrite replace_from_outside by done. f_equal. simpl.
  rewrite replace_from_inside by done. simpl.
  destruct (inner x).
  - f_equal. rewrite <- (app_nil_r post) at 1.
    rewrite replace_from_outside by done. simpl. by rewrite app_nil_r.
  - rewrite <- (app_nil_r post) at 1. rewrite replace_from_inside by done.
    simpl. by rewrite <- app_assoc.
Qed.

(** X8. A text without a complete code span is left as it is, whatever the
    formatters: [colorizeCodeReferences] changes neither a text without a
    backtick nor a text with a single, unclosed backtick. *)
Theorem colorize_without_span (pc : Colors) (pre post : str) :
  BACKTICK ∉ pre → BACKTICK ∉ post →
  colorizeCodeReferences pc pre = pre ∧
  colorizeCodeReferences pc (pre ++ BACKTICK :: post) = pre ++ BACKTICK :: post.
Proof.
  intros Hpre Hpost. unfold colorizeCodeReferences. split.
  - by repeat (rewrite (replace_spans_no_backtick _ _ pre) by done).
  - by repeat (rewrite (replace_spans_open_backtick _ _ pre post) by done).
Qed.

Lemma colorize_without_span_witness :
  colorizeCodeReferences pc_ansi (u "an open ") = u "an open " ∧
  colorizeCodeReferences pc_ansi (u "an open ` tick") = u "an open ` tick".
Proof.
  apply (colorize_without_span pc_ansi (u "an open ") (u " tick"));
    apply (bool_decide_unpack _); vm_compute; exact I.
Defined.

(** X9. The default category: a lone code span that is neither a command
    nor a file reference is wrapped by [dim], and the text around it is
    untouched, whatever the formatters. *)
Theorem colorize_lone_default_span (pc : Colors) (pre x post : str) :
  BACKTICK ∉ pre → BACKTICK ∉ x → BACKTICK ∉ post → x ≠ [] →
  inner_bunx x = false → inner_bun_run x = false → inner_file x = false →
  colorizeCodeReferences pc (pre ++ BACKTICK :: x ++ BACKTICK :: post)
  = pre ++ dim pc (BACKTICK :: x ++ [BACKTICK]) ++ post.
Proof.
  intros Hpre Hx Hpost Hne H1 H2 H3. unfold colorizeCodeReferences.
  rewrite (replace_spans_lone_span inner_bunx) by done. rewrite H1.
  replace (pre ++ (BACKTICK :: x ++ [BACKTICK]) ++ post)
    with (pre ++ BACKTICK :: x ++ BACKTICK :: post)
    by (simpl; by rewrite <- app_assoc).
  rewrite (replace_spans_lone_span inner_bun_run) by done. rewrite H2.
  replace (pre ++ (BACKTICK :: x ++ [BACKTICK]) ++ post)
    with (pre ++ BACKTICK :: x ++ BACKTICK :: post)
    by (simpl; by rewrite <- app_assoc).
  rewrite (replace_spans_lone_span inner_file) by done. rewrite H3.
  replace (pre ++ (BACKTICK :: x ++ [BACKTICK]) ++ post)
    with (pre ++ BACKTICK :: x ++ BACKTICK :: post)
    by (simpl; by rewrite <- app_assoc).
  rewrite (replace_spans_lone_span inner_any) by done.
  unfold inner_any. destruct x; [done|]. done.
Qed.

Lemma colorize_lone_default_span_witness :
  colorizeCodeReferences pc_ansi (u "see `Effect.gen` here")
  = u "see " ++ dim pc_ansi (u "`Effect.gen`") ++ u " here".
Proof.
  apply (colorize_lone_default_span pc_ansi (u "see ") (u "Effect.gen") (u " here"));
    try (apply (bool_decide_unpack _); vm_compute; exact I);
    try discriminate; reflexivity.
Defined.

(** ** Trimming twice *)

Lemma trimStart_idem (s : str) : trimStart (trimStart s) = trimStart s.
Proof.
  induction s as [|c s IH]; [done|]. simpl.
  destruct (is_space c) eqn:Hc; [done|]. simpl. by rewrite Hc.
Qed.

Lemma trimStart_snoc (x : str) (c : N) :
  is_space c = false → trimStart (x ++ [c]) = trimStart x ++ [c].
Proof.
  intros Hc. induction x as [|d x IH]; simpl; [by rewrite Hc|].
  by destruct (is_space d).
Qed.

Lemma trimEnd_cons (c : N) (t : str) :
  is_space c = false → trimEnd (c :: t) = c :: trimEnd t.
Proof.
  intros Hc. unfold trimEnd.
  by rewrite reverse_cons, trimStart_snoc, reverse_app.
Qed.

Lemma trimEnd_idem (s : str) : trimEnd (trimEnd s) = trimEnd s.
Proof. unfold trimEnd. by rewrite reverse_involutive, trimStart_idem. Qed.

Lemma trim_idem (s : str) : trim (trim s) = trim s.
Proof.
  unfold trim. destruct (trimStart s) as [|c t] eqn:Ht; [done|].
  pose proof (trimStart_head _ _ _ Ht) as Hc.
  rewrite trimEnd_cons by done. simpl. rewrite Hc.
  rewrite trimEnd_cons by done. by rewrite trimEnd_idem.
Qed.

Lemma requested_slugs_trimmed (requested : list str) :
  Forall (λ s, trim s = s ∧ s ≠ []) (requested_slugs requested).
Proof.
  apply Forall_forall. intros s Hs. unfold requested_slugs in Hs.
  apply list_elem_of_filter in Hs as [Hne Hs]. split; [|done].
  apply list_elem_of_fmap in Hs as (r & -> & _). apply trim_idem.
Qed.

Lemma requested_slugs_fixed (l : list str) :
  Forall (λ s, trim s = s ∧ s ≠ []) l → requested_slugs l = l.
Proof.
  unfold requested_slugs. induction 1 as [|s l [Ht Hne] _ IH]; [done|].
  rewrite fmap_cons, Ht, filter_cons_True by done. by rewrite IH.
Qed.

Lemma Array_from_Set_NoDup (l acc : list str) :
  NoDup (acc ++ l) → foldl Set_add acc l = acc ++ l.
Proof.
  revert acc. induction l as [|x l IH]; intros acc Hnd; simpl.
  - by rewrite app_nil_r.
  - assert (x ∉ acc) as Hx.
    { apply NoDup_app in Hnd as (_ & Hd & _). intros Hin.
      apply (Hd x Hin). left. }
    unfold Set_add at 2. rewrite bool_decide_eq_false_2 by done.
    rewrite IH by (by rewrite <- app_assoc). by rewrite <- app_assoc.
Qed.

Section RequestFacts.
Context (pc : Colors) (DOC_LOOKUP : gmap str Doc).

(** X10. Only the trimmed, non-blank slugs of a request matter: a request
    and the list of its slugs after trimming and dropping the blank ones
    give the same result, a text or an error alike. *)
Theorem renderDocs_ignores_padding (requested : list str) :
  renderDocs pc DOC_LOOKUP (requested_slugs requested)
  = renderDocs pc DOC_LOOKUP requested.
Proof.
  unfold renderDocs.
  by rewrite (requested_slugs_fixed _ (requested_slugs_trimmed requested)).
Qed.

(** X11. [renderDocs] returns a text exactly when the request has a
    non-blank slug and every non-blank slug is in the catalog. *)
Theorem renderDocs_returns_iff (requested : list str) :
  (∃ output, renderDocs pc DOC_LOOKUP requested = Return output)
  ↔ requested_slugs requested ≠ [] ∧
    Forall (λ s, is_Some (DOC_LOOKUP !! s)) (requested_slugs requested).
Proof.
  split.
  - intros [output Hr].
    destruct (decide (requested_slugs requested = [])) as [Hm|Hm].
    { by rewrite renderDocs_missing in Hr. }
    split; [done|].
    destruct (decide (unknown_slugs DOC_LOOKUP (requested_slugs requested) = []))
      as [Hu|Hu]; [|by rewrite renderDocs_unknown in Hr].
    rewrite renderDocs_known in Hr by done.
    destruct (map_throwing (block_of pc DOC_LOOKUP)
                (Array_from_Set (requested_slugs requested)))
      as [blocks|e] eqn:Hmap; [|done].
    apply map_throwing_returns in Hmap. rewrite Forall_forall in *.
    intros s Hs. apply Hmap.
    by rewrite Array_from_Set_first_occurrences, first_occurrences_elem_of.
  - intros [Hne Hk].
    rewrite renderDocs_known by (by try apply own_slugs_not_unknown).
    destruct (map_throwing_known pc DOC_LOOKUP _
                (own_first_occurrences DOC_LOOKUP _ Hk)) as (docs & _ & ->).
    simpl. eauto.
Qed.

(** X12. Repeating slugs of the catalog changes nothing: when no requested
    slug is unknown, the request and the list of its distinct slugs, at
    their first occurrences, give the same result. *)
Theorem renderDocs_ignores_repeats (requested : list str) :
  unknown_slugs DOC_LOOKUP (requested_slugs requested) = [] →
  renderDocs pc DOC_LOOKUP (first_occurrences (requested_slugs requested))
  = renderDocs pc DOC_LOOKUP requested.
Proof.
  intros Hu.
  assert (Hfix : requested_slugs (first_occurrences (requested_slugs requested))
                 = first_occurrences (requested_slugs requested)).
  { apply requested_slugs_fixed. apply Forall_forall. intros s Hs.
    rewrite first_occurrences_elem_of in Hs.
    pose proof (requested_slugs_trimmed requested) as Ht.
    rewrite Forall_forall in Ht. exact (Ht s Hs). }
  destruct (decide (requested_slugs requested = [])) as [Hm|Hm].
  { rewrite (renderDocs_missing _ _ requested) by done.
    apply renderDocs_missing. rewrite Hfix, Hm. reflexivity. }
  assert (Hne : first_occurrences (requested_slugs requested) ≠ []).
  { intros Hnil. destruct (requested_slugs requested) as [|s l]; [done|].
    assert (s ∈ first_occurrences (s :: l)) as Hin
      by (rewrite first_occurrences_elem_of; left).
    rewrite Hnil in Hin. by apply elem_of_nil in Hin. }
  assert (Hu' : unknown_slugs DOC_LOOKUP
                  (first_occurrences (requested_slugs requested)) = []).
  { apply unknown_slugs_nil. apply unknown_slugs_nil in Hu.
    rewrite Forall_forall in *. intros s Hs. apply Hu.
    by rewrite first_occurrences_elem_of in Hs. }
  rewrite (renderDocs_known _ _ requested) by done.
  rewrite renderDocs_known by (by rewrite Hfix).
  rewrite Hfix.
  assert (Array_from_Set (first_occurrences (requested_slugs requested))
          = Array_from_Set (requested_slugs requested)) as ->; [|done].
  rewrite (Array_from_Set_first_occurrences (requested_slugs requested)).
  apply (Array_from_Set_NoDup _ []), first_occurrences_NoDup.
Qed.

(** X13. The empty string between the title line and the body is filtered
    out of a block: a block is the title line alone when the colourised
    body is empty, in particular when the body is blank, and otherwise the
    title line, one newline and the colourised body. *)
Theorem renderBlock_shape (doc : Doc) :
  renderBlock pc doc
  = (if bool_decide (colorizeCodeReferences pc (trim (body doc)) = [])
     then titleLine pc doc
     else titleLine pc doc ++ [NL]
          ++ colorizeCodeReferences pc (trim (body doc))) ∧
  (blank (body doc) → renderBlock pc doc = titleLine pc doc).
Proof.
  assert (Ht : titleLine pc doc ≠ []).
  { unfold titleLine. intros H. apply app_eq_nil in H as [_ H]. done. }
  assert (Hshape : renderBlock pc doc
    = if bool_decide (colorizeCodeReferences pc (trim (body doc)) = [])
      then titleLine pc doc
      else titleLine pc doc ++ [NL]
           ++ colorizeCodeReferences pc (trim (body doc))).
  { unfold renderBlock. fold (titleLine pc doc).
    rewrite filter_cons_True by done.
    rewrite filter_cons_False by (by intros H).
    rewrite filter_cons.
    destruct (decide (colorizeCodeReferences pc (trim (body doc)) = [])) as [He|He].
    - rewrite bool_decide_eq_true_2 by done.
      destruct (decide _) as [Hd|Hd]; [done|]. done.
    - rewrite bool_decide_eq_false_2 by done.
      destruct (decide _) as [Hd|Hd]; [|done]. done. }
  split; [done|]. intros Hb. rewrite Hshape.
  apply trim_nil in Hb. rewrite Hb. done.
Qed.

End RequestFacts.

Lemma renderDocs_ignores_repeats_witness :
  unknown_slugs sample_lookup (requested_slugs sample_request) = [] ∧
  first_occurrences (requested_slugs sample_request) = [u "b"; u "a"] ∧
  renderDocs pc_plain sample_lookup [u "b"; u "a"]
  = renderDocs pc_plain sample_lookup sample_request.
Proof.
  assert (H : unknown_slugs sample_lookup (requested_slugs sample_request) = [])
    by reflexivity.
  split; [done|]. split; [reflexivity|].
  exact (renderDocs_ignores_repeats pc_plain sample_lookup sample_request H).
Defined.

Lemma renderBlock_shape_witness :
  blank (body {| slug := u "e"; title := u "E"; description := []; body := u "  " |}) ∧
  renderBlock pc_plain
    {| slug := u "e"; title := u "E"; description := []; body := u "  " |}
  = u "## E (e)".
Proof.
  assert (H : blank (u "  ")) by (by repeat constructor).
  split; [done|].
  apply (proj2 (renderBlock_shape pc_plain
    {| slug := u "e"; title := u "E"; description := []; body := u "  " |}) H).
Defined.

(** ** The sample site *)

Example site_sections :
  Site.sections site_docs
  = [ (Site.Setup, [doc_tsconfig]);
      (Site.CorePatterns, [doc_services]);
      (Site.Drafts, [doc_home; doc_overview]) ].
Proof. reflexivity. Qed.

Example site_specs :
  (Og.slug <$> (Og.dedupeSpecs (Og.buildDocSpecs site_docs)).1
   = [u "home"; u "tsconfig"; u "services"; u "overview"]) ∧
  (Og.dedupeSpecs (Og.buildDocSpecs site_docs)).2
  = [u "Skipping duplicate OG slug: home"].
Proof. split; vm_compute; reflexivity. Qed.

Example site_only :
  Og.only_slugs (Some (u " tsconfig, ,nope,")) = [u "tsconfig"; u "nope"] ∧
  Og.only_slugs None = [] ∧
  Og.slug <$> (Og.pickSpecs (Some (u " tsconfig, ,nope,")) site_docs).1
  = [u "tsconfig"].
Proof. repeat split; vm_compute; reflexivity. Qed.

(** ** Groups of the document list *)

Lemma grouped_from (docs : list Site.doc) :
  ∀ (acc : Site.DocGroup → option (list Site.doc))
    (f : Site.DocGroup → list Site.doc),
    (∀ g, acc g = match f g with [] => None | d :: ds => Some (d :: ds) end) →
    ∀ g, foldl Site.group_step acc docs g
         = match f g ++ filter (λ d, Site.assignGroup d = g) docs with
           | [] => None
           | d :: ds => Some (d :: ds)
           end.
Proof.
  induction docs as [|d docs IH]; intros acc f Hacc g; simpl.
  - by rewrite app_nil_r.
  - rewrite (IH _ (λ g', if decide (g' = Site.assignGroup d)
                         then f g' ++ [d] else f g')).
    + rewrite filter_cons.
      destruct (decide (g = Site.assignGroup d)) as [->|Hg].
      * rewrite decide_True by done. by rewrite <- app_assoc.
      * by rewrite decide_False by congruence.
    + intros g'. unfold Site.group_step.
      destruct (decide (g' = Site.assignGroup d)) as [->|Hg]; [|apply Hacc].
      rewrite Hacc. by destruct (f (Site.assignGroup d)).
Qed.

Lemma grouped_filter (docs : list Site.doc) (g : Site.DocGroup) :
  Site.grouped docs g
  = match filter (λ d, Site.assignGroup d = g) docs with
    | [] => None
    | d :: ds => Some (d :: ds)
    end.
Proof. apply (grouped_from docs (λ _, None) (λ _, [])). done. Qed.

(** X14. The [reduce] of the document list is a stable partition: the
    array of a group holds the documents assigned to that group, in the
    order of the input, and a group without documents has no array. *)
Theorem grouped_is_stable_partition (docs : list Site.doc) (g : Site.DocGroup) :
  Site.grouped docs g
  = match filter (λ d, Site.assignGroup d = g) docs with
    | [] => None
    | d :: ds => Some (d :: ds)
    end.
Proof. apply grouped_filter. Qed.

Lemma assignGroup_partition (docs : list Site.doc) :
  filter (λ d, Site.assignGroup d = Site.Setup) docs
  ++ filter (λ d, Site.assignGroup d = Site.CorePatterns) docs
  ++ filter (λ d, Site.assignGroup d = Site.Drafts) docs ≡ₚ docs.
Proof.
  induction docs as [|d docs IH]; [done|].
  rewrite !filter_cons. destruct (Site.assignGroup d) eqn:Hd.
  - rewrite decide_True, !decide_False by done. simpl. by constructor.
  - rewrite decide_False, decide_True, decide_False by done. simpl.
    rewrite <- Permutation_middle. by constructor.
  - rewrite !decide_False, decide_True by done. simpl.
    rewrite app_assoc, <- Permutation_middle, <- app_assoc. by constructor.
Qed.

(** X15. The document list shows every document exactly once: the
    documents of the rendered sections, section after section, are the Setup
    documents, then the Core Patterns ones, then the drafts, each in input
    order, which is a permutation of the input; no empty section is
    rendered, and every document of a section belongs to its group. *)
Theorem sections_show_every_doc_once (docs : list Site.doc) :
  concat (snd <$> Site.sections docs)
  = filter (λ d, Site.assignGroup d = Site.Setup) docs
    ++ filter (λ d, Site.assignGroup d = Site.CorePatterns) docs
    ++ filter (λ d, Site.assignGroup d = Site.Drafts) docs ∧
  concat (snd <$> Site.sections docs) ≡ₚ docs ∧
  fst <$> Site.sections docs `sublist_of` Site.GROUP_DISPLAY_ORDER ∧
  Forall (λ sec, sec.2 ≠ [] ∧ Forall (λ d, Site.assignGroup d = sec.1) sec.2)
         (Site.sections docs).
Proof.
  assert (Hin : ∀ g, Forall (λ d, Site.assignGroup d = g)
                       (filter (λ d, Site.assignGroup d = g) docs)).
  { intros g. apply Forall_forall. intros d Hd.
    by apply list_elem_of_filter in Hd as [Hd _]. }
  pose proof (Hin Site.Setup) as H1. pose proof (Hin Site.CorePatterns) as H2.
  pose proof (Hin Site.Drafts) as H3.
  assert (Heq : concat (snd <$> Site.sections docs)
    = filter (λ d, Site.assignGroup d = Site.Setup) docs
      ++ filter (λ d, Site.assignGroup d = Site.CorePatterns) docs
      ++ filter (λ d, Site.assignGroup d = Site.Drafts) docs).
  { unfold Site.sections, Site.GROUP_DISPLAY_ORDER. simpl.
    rewrite !grouped_filter.
    destruct (filter (λ d, Site.assignGroup d = Site.Setup) docs);
    destruct (filter (λ d, Site.assignGroup d = Site.CorePatterns) docs);
    destruct (filter (λ d, Site.assignGroup d = Site.Drafts) docs);
    simpl; by rewrite ?app_nil_r. }
  split; [done|]. split; [rewrite Heq; apply assignGroup_partition|].
  unfold Site.sections, Site.GROUP_DISPLAY_ORDER. simpl.
  rewrite !grouped_filter.
  destruct (filter (λ d, Site.assignGroup d = Site.Setup) docs);
  destruct (filter (λ d, Site.assignGroup d = Site.CorePatterns) docs);
  destruct (filter (λ d, Site.assignGroup d = Site.Drafts) docs);
  simpl; (split; [repeat first [done | apply sublist_skip | apply sublist_cons | apply sublist_nil]
                 | repeat (constructor; [by split|]); constructor]).
Qed.

(** ** Dropping duplicate specs *)

Lemma first_with_slug_app (s : str) (l k : list Og.TemplateFields) :
  Og.first_with_slug s (l ++ k)
  = match Og.first_with_slug s l with
    | Some spec => Some spec
    | None => Og.first_with_slug s k
    end.
Proof.
  unfold Og.first_with_slug. rewrite filter_app.
  by destruct (filter (λ spec, Og.slug spec = s) l).
Qed.

Lemma first_with_slug_is_Some (s : str) (l : list Og.TemplateFields) :
  s ∈ Og.slug <$> l → is_Some (Og.first_with_slug s l).
Proof.
  intros Hin. apply list_elem_of_fmap in Hin as (x & -> & Hx).
  unfold Og.first_with_slug.
  assert (x ∈ filter (λ spec, Og.slug spec = Og.slug x) l) as Hf
    by (by apply list_elem_of_filter).
  destruct (filter _ l); [by apply elem_of_nil in Hf | by eexists].
Qed.

Lemma first_with_slug_None (s : str) (l : list Og.TemplateFields) :
  s ∉ Og.slug <$> l → Og.first_with_slug s l = None.
Proof.
  intros Hn. unfold Og.first_with_slug.
  destruct (filter (λ spec, Og.slug spec = s) l) as [|x xs] eqn:Hf; [done|].
  exfalso. apply Hn.
  assert (x ∈ filter (λ spec, Og.slug spec = s) l) as Hx by (rewrite Hf; left).
  apply list_elem_of_filter in Hx as [<- Hx]. by apply list_elem_of_fmap_2.
Qed.

Lemma dedupe_fold (specs : list Og.TemplateFields) :
  ∀ seen unique warnings seen' unique' warnings',
    (∀ s, s ∈ seen ↔ s ∈ Og.slug <$> unique) →
    NoDup (Og.slug <$> unique) →
    foldl Og.dedupe_step (seen, unique, warnings) specs
    = (seen', unique', warnings') →
    NoDup (Og.slug <$> unique') ∧
    unique `prefix_of` unique' ∧
    unique' `sublist_of` unique ++ specs ∧
    (∀ s, s ∈ Og.slug <$> unique' ↔ s ∈ Og.slug <$> (unique ++ specs)) ∧
    (length unique' + length warnings'
     = length unique + length warnings + length specs)%nat ∧
    (∀ s, Og.first_with_slug s unique' = Og.first_with_slug s (unique ++ specs)).
Proof.
  induction specs as [|spec specs IH];
    intros seen unique warnings seen' unique' warnings' Hseen Hnd Hf.
  - simpl in Hf. injection Hf as <- <- <-. rewrite app_nil_r.
    repeat split; try done; simpl; lia.
  - simpl in Hf. destruct (decide (Og.slug spec ∈ seen)) as [Hin|Hin].
    + rewrite bool_decide_eq_true_2 in Hf by done.
      destruct (IH _ _ _ _ _ _ Hseen Hnd Hf) as (H1 & H2 & H3 & H4 & H5 & H6).
      apply Hseen in Hin.
      split; [done|]. split; [done|]. split; [|split; [|split]].
      * etrans; [exact H3|]. apply sublist_app; [done|]. by apply sublist_cons.
      * intros s. rewrite H4, !fmap_app, !elem_of_app, fmap_cons, elem_of_cons.
        split; [tauto|]. intros [?|[->|?]]; tauto.
      * rewrite length_app in H5. rewrite length_cons. simpl in H5. lia.
      * intros s. rewrite H6, !first_with_slug_app.
        destruct (Og.first_with_slug s unique) eqn:Hu; [done|].
        unfold Og.first_with_slug at 2. rewrite filter_cons.
        destruct (decide (Og.slug spec = s)) as [<-|Hs]; [|done].
        apply first_with_slug_is_Some in Hin as [x Hx]. congruence.
    + rewrite bool_decide_eq_false_2 in Hf by done.
      apply IH in Hf as (H1 & H2 & H3 & H4 & H5 & H6).
      * rewrite <- app_assoc in H3, H4, H6. simpl in H3, H4, H6.
        split; [done|]. split; [|split; [done|split; [done|split]]].
        -- etrans; [|exact H2]. by apply prefix_app_r.
        -- rewrite length_app in H5. simpl in *. lia.
        -- done.
      * intros s. rewrite fmap_app, elem_of_union, elem_of_singleton,
          elem_of_app, Hseen. simpl. rewrite list_elem_of_singleton. tauto.
      * rewrite fmap_app. apply NoDup_app. split; [done|].
        split; [|apply NoDup_singleton].
        intros s Hs Hs'. apply list_elem_of_singleton in Hs'. subst s.
        by apply Hin, Hseen.
Qed.

Lemma dedupeSpecs_fold (specs : list Og.TemplateFields) :
  ∃ seen, foldl Og.dedupe_step (∅, [], []) specs
          = (seen, (Og.dedupeSpecs specs).1, (Og.dedupeSpecs specs).2).
Proof.
  unfold Og.dedupeSpecs.
  destruct (foldl Og.dedupe_step (∅, [], []) specs) as [[seen unique] warnings].
  by exists seen.
Qed.

Lemma dedupeSpecs_facts (specs : list Og.TemplateFields) :
  NoDup (Og.slug <$> (Og.dedupeSpecs specs).1) ∧
  (Og.dedupeSpecs specs).1 `sublist_of` specs ∧
  (∀ s, s ∈ Og.slug <$> (Og.dedupeSpecs specs).1 ↔ s ∈ Og.slug <$> specs) ∧
  (length (Og.dedupeSpecs specs).1 + length (Og.dedupeSpecs specs).2
   = length specs)%nat ∧
  (∀ s, Og.first_with_slug s (Og.dedupeSpecs specs).1 = Og.first_with_slug s specs).
Proof.
  destruct (dedupeSpecs_fold specs) as [seen Hf].
  apply dedupe_fold in Hf as (H1 & _ & H3 & H4 & H5 & H6).
  - repeat split; try done. apply H4. apply H4.
  - intros s. simpl. rewrite elem_of_nil, elem_of_empty. tauto.
  - constructor.
Qed.

(** X16. [dedupeSpecs] keeps one spec for each slug, in the order of the
    input: the slugs of the specs kept are pairwise distinct, the specs kept
    are a sublist of the input with the same slugs, and a warning is written
    for every spec dropped. *)
Theorem dedupeSpecs_unique_slugs (specs : list Og.TemplateFields) :
  NoDup (Og.slug <$> (Og.dedupeSpecs specs).1) ∧
  (Og.dedupeSpecs specs).1 `sublist_of` specs ∧
  (∀ s, s ∈ Og.slug <$> (Og.dedupeSpecs specs).1 ↔ s ∈ Og.slug <$> specs) ∧
  (length (Og.dedupeSpecs specs).1 + length (Og.dedupeSpecs specs).2
   = length specs)%nat.
Proof. destruct (dedupeSpecs_facts specs) as (? & ? & ? & ? & _). done. Qed.

(** X17. Of several specs with one slug [dedupeSpecs] keeps the first: the
    first spec with a given slug is the same before and after. *)
Theorem dedupeSpecs_keeps_first (specs : list Og.TemplateFields) (s : str) :
  Og.first_with_slug s (Og.dedupeSpecs specs).1 = Og.first_with_slug s specs.
Proof. by destruct (dedupeSpecs_facts specs) as (_ & _ & _ & _ & ?). Qed.

Lemma first_with_slug_NoDup (l : list Og.TemplateFields) (x : Og.TemplateFields) :
  NoDup (Og.slug <$> l) → x ∈ l → Og.first_with_slug (Og.slug x) l = Some x.
Proof.
  unfold Og.first_with_slug. induction l as [|y l IH]; intros Hnd Hx.
  - by apply elem_of_nil in Hx.
  - rewrite fmap_cons in Hnd. apply NoDup_cons in Hnd as [Hy Hnd].
    apply elem_of_cons in Hx as [->|Hx]; [by rewrite filter_cons_True|].
    rewrite filter_cons_False; [by apply IH|].
    intros Heq. apply Hy. rewrite Heq. by apply list_elem_of_fmap_2.
Qed.

Lemma dedupeSpecs_head (spec : Og.TemplateFields) (specs : list Og.TemplateFields) :
  head (Og.dedupeSpecs (spec :: specs)).1 = Some spec.
Proof.
  destruct (dedupeSpecs_fold (spec :: specs)) as [seen Hf]. simpl in Hf.
  rewrite bool_decide_eq_false_2 in Hf by apply not_elem_of_empty.
  apply dedupe_fold in Hf as (_ & [k Hk] & _).
  - rewrite Hk. done.
  - intros s. simpl.
    rewrite list_elem_of_singleton, elem_of_union, elem_of_singleton, elem_of_empty.
    tauto.
  - simpl. apply NoDup_singleton.
Qed.

(** X18. The specs picked for the preview images are never empty and never
    hold two specs with one slug: they are a sublist of the specs built,
    the only spec with the slug [home] among them is the home page's (a
    document with that slug is dropped), and without an [OG_ONLY] filter the
    home page's spec comes first. *)
Theorem pickSpecs_nonempty_unique (OG_ONLY : option str) (docs : list Site.doc) :
  (Og.pickSpecs OG_ONLY docs).1 ≠ [] ∧
  (Og.pickSpecs OG_ONLY docs).1 `sublist_of` Og.buildDocSpecs docs ∧
  NoDup (Og.slug <$> (Og.pickSpecs OG_ONLY docs).1) ∧
  (∀ spec, spec ∈ (Og.pickSpecs OG_ONLY docs).1 →
           Og.slug spec = u "home" → spec = Og.homeSpec) ∧
  (Og.only_slugs OG_ONLY = [] →
   head (Og.pickSpecs OG_ONLY docs).1 = Some Og.homeSpec).
Proof.
  destruct (dedupeSpecs_facts (Og.buildDocSpecs docs)) as (Hnd & Hsub & _ & _ & Hfirst).
  pose proof (dedupeSpecs_head Og.homeSpec
    (tail (Og.buildDocSpecs docs))) as Hhead.
  change (Og.homeSpec :: tail (Og.buildDocSpecs docs))
    with (Og.buildDocSpecs docs) in Hhead.
  assert (Hhome : ∀ spec, spec ∈ (Og.dedupeSpecs (Og.buildDocSpecs docs)).1 →
                          Og.slug spec = u "home" → spec = Og.homeSpec).
  { intros spec Hin Hs.
    pose proof (first_with_slug_NoDup _ _ Hnd Hin) as Hf.
    rewrite Hfirst, Hs in Hf.
    unfold Og.first_with_slug, Og.buildDocSpecs in Hf.
    rewrite filter_cons_True in Hf by done. simpl in Hf. congruence. }
  unfold Og.pickSpecs.
  destruct (Og.dedupeSpecs (Og.buildDocSpecs docs)) as [specs warnings].
  cbn [fst] in Hnd, Hsub, Hhead, Hhome.
  destruct (length (Og.only_slugs OG_ONLY) =? 0)%nat eqn:Hlen.
  { cbn [fst]. split; [by destruct specs|]. repeat split; try done. }
  destruct (length (filter (λ spec, Og.slug spec ∈ Og.only_slugs OG_ONLY) specs)
            =? 0)%nat eqn:Hfl.
  { cbn [fst]. split; [by destruct specs|]. repeat split; try done. }
  cbn [fst]. split.
  { intros Hnil. rewrite Hnil in Hfl. done. }
  split; [etrans; [apply sublist_filter | done]|].
  split.
  { eapply sublist_NoDup; [exact Hnd | apply fmap_sublist, sublist_filter]. }
  split.
  { intros spec Hin. apply Hhome.
    by apply list_elem_of_filter in Hin as [_ Hin]. }
  intros Honly. by rewrite Honly in Hlen.
Qed.

(** The slugs of an [OG_ONLY] filter are trimmed and none is empty; an
    unset variable gives no filter. *)
Lemma only_slugs_trimmed (OG_ONLY : option str) :
  Forall (λ s, trim s = s ∧ s ≠ []) (Og.only_slugs OG_ONLY) ∧
  Og.only_slugs None = [].
Proof.
  split; [|reflexivity]. apply Forall_forall. intros s Hs.
  unfold Og.only_slugs in Hs. apply list_elem_of_filter in Hs as [Hne Hs].
  split; [|done]. apply list_elem_of_fmap in Hs as (r & -> & _). apply trim_idem.
Qed.

(** ** Wrapping again, and formatters that change nothing *)

Lemma words_of_join (ws : list str) :
  Forall (λ w, spaceless w ∧ w ≠ []) ws → words_of (join [SP] ws) = ws.
Proof.
  induction 1 as [|w ws [Hw Hne] Hws IH]; [done|].
  assert (Hww : words_of w = [w]).
  { rewrite words_of_piece by done. by rewrite filter_cons_True. }
  destruct ws as [|x ws]; [done|].
  rewrite join_cons_cons. change (w ++ [SP] ++ join [SP] (x :: ws))
    with (w ++ SP :: join [SP] (x :: ws)).
  by rewrite (words_of_app_space _ _ SP), Hww, IH.
Qed.

Lemma ends_in_word_join (ws : list str) :
  ws ≠ [] → Forall (λ w, spaceless w ∧ w ≠ []) ws →
  ends_in_word (join [SP] ws).
Proof.
  intros Hne H. induction H as [|w ws [Hw Hnw] Hws IH]; [done|].
  destruct ws as [|x ws].
  - simpl. unfold spaceless in Hw. rewrite Forall_forall in Hw.
    destruct (last w) as [c|] eqn:Hl.
    + exists c. split; [done|]. apply Hw. by apply last_Some_elem_of.
    + by apply last_None in Hl.
  - destruct IH as (c & Hl & Hc); [done|].
    exists c. split; [|done]. rewrite join_cons_cons, !last_app, Hl. done.
Qed.

Lemma words_of_pieces (text : str) :
  Forall (λ w, spaceless w ∧ w ≠ []) (words_of text).
Proof.
  apply Forall_forall. intros w Hin. unfold words_of in Hin.
  apply list_elem_of_filter in Hin as [Hne Hin]. split; [|done].
  pose proof (split_ws_spaceless text) as Hs.
  rewrite Forall_forall in Hs. by apply Hs.
Qed.

(** X19. Wrapping is stable: for a text that ends in a word and W > 0, the
    lines of [wrapText], joined by single spaces and wrapped again to the
    same width, are the same lines. *)
Theorem wrapText_again (text : str) (W : Z) :
  ends_in_word text → 0 < W →
  wrapText (join [SP] (wrapText text W)) W = wrapText text W.
Proof.
  intros Hend HW.
  pose proof (words_of_pieces text) as Hp.
  assert (Hne : words_of text ≠ [])
    by (by apply not_blank_has_word, ends_in_word_not_blank).
  assert (Hj : join [SP] (wrapText text W) = join [SP] (words_of text)).
  { rewrite wrapText_greedy_words by done.
    destruct (words_of text) as [|w ws]; [done|]. apply greedy_lines_join. }
  rewrite Hj, (wrapText_greedy_words (join [SP] (words_of text)))
    by (by try apply ends_in_word_join).
  by rewrite words_of_join, wrapText_greedy_words.
Qed.

Lemma wrapText_again_witness :
  ends_in_word (u " to be  or not") ∧
  wrapText (u "to be or not") 5 = wrapText (u " to be  or not") 5.
Proof.
  assert (He : ends_in_word (u " to be  or not")) by (exists 116%N; by vm_compute).
  split; [done|].
  apply (wrapText_again (u " to be  or not") 5 He). lia.
Defined.

Lemma replace_from_same (inner : str → bool) (f : str → str) :
  (∀ m, f m = m) →
  ∀ s span, replace_from inner f span s
            = match span with None => [] | Some x => BACKTICK :: x end ++ s.
Proof.
  intros Hf. induction s as [|c s IH]; intros span; simpl.
  - destruct span; by rewrite ?app_nil_r.
  - destruct span as [x|]; destruct (c =? BACKTICK)%N eqn:Hc; rewrite ?IH.
    + apply N.eqb_eq in Hc. subst c.
      destruct (inner x); rewrite ?Hf; simpl; by rewrite <- ?app_assoc.
    + simpl. by rewrite <- app_assoc.
    + apply N.eqb_eq in Hc. by subst c.
    + done.
Qed.

(** X20. With colours off the text is left as it is: when the formatters
    return their argument (as picocolors does without colour support),
    [colorizeCodeReferences] is the identity, on every text. *)
Theorem colorize_without_colours (pc : Colors) (text : str) :
  (∀ m, bold pc m = m) → (∀ m, green pc m = m) →
  (∀ m, cyan pc m = m) → (∀ m, dim pc m = m) →
  colorizeCodeReferences pc text = text.
Proof.
  intros Hb Hg Hc Hd. unfold colorizeCodeReferences, replace_spans.
  rewrite (replace_from_same inner_bunx) by (intros m; by rewrite Hg, Hb).
  rewrite (replace_from_same inner_bun_run) by (intros m; by rewrite Hg, Hb).
  rewrite (replace_from_same inner_file) by done.
  by rewrite (replace_from_same inner_any).
Qed.

Lemma colorize_without_colours_witness :
  colorizeCodeReferences pc_plain (u "Run `bunx tsc` on `main.ts`.")
  = u "Run `bunx tsc` on `main.ts`.".
Proof. by apply (colorize_without_colours pc_plain). Defined.
